(** * A grid world and a tabular Q-learner: the model of [grid.py]

    The development follows the Python source class by class.  Each class
    is a [Module]; its methods keep their Python names.  Conventions:

    - a Python [str] is a [list ascii], one [ascii] per character (code
      points below 256, which covers every character the program gives a
      meaning to);
    - Python integers (coordinates, rewards, the score) are [Z];
    - Python floats (table values, learning and discount rates, epsilon,
      the random sample) are IEEE binary64 numbers, [PrimFloat.float]; the
      small integers the program stores in a table (a default of [0] or
      [-1], a reward of [-1] or [-1000]) are the floats of the same value,
      on which Python's mixed arithmetic and comparisons agree with the
      float ones;
    - a method that may raise returns a [result]; a method that mutates
      its object returns the new object. *)

From Stdlib Require Import ZArith Ascii String List Lia Bool.
From Stdlib Require Import Floats.
From stdpp Require Import base option list gmap.

Import ListNotations.
#[local] Open Scope Z_scope.

(** ** Exceptions *)

(** The reasons for which [World.parse] raises [WorldFailure]; the fields
    are the numbers formatted into the message. *)
Inductive failure :=
| no_content
| different_length (y len len0 : nat)
| invalid_char (ch : ascii) (x y : nat)
| no_initial_state.

Inductive exn :=
| WorldFailure (reason : failure)
| TypeError
| IndexError.

Inductive result (A : Type) :=
| Ok (a : A)
| Raise (e : exn).
Arguments Ok {A} a.
Arguments Raise {A} e.

#[global] Instance result_ret : MRet result := @Ok.

#[global] Instance result_bind : MBind result := fun A B k r =>
  match r with
  | Ok a => k a
  | Raise e => Raise e
  end.

(** ** Python strings and sequences *)

Abbreviation str := (list ascii).

(** [str.isspace] on one character. *)
Definition isspace (c : ascii) : bool :=
  let n := nat_of_ascii c in
  ((9 <=? n) && (n <=? 13) || (28 <=? n) && (n <=? 32)
   || (n =? 133) || (n =? 160))%nat.

(** [s.split()]: the maximal runs of characters that are not whitespace.
    [cur] is the run being read, most recent character first. *)
Fixpoint split_from (cur : str) (s : str) : list str :=
  match s with
  | [] => match cur with [] => [] | _ => [rev cur] end
  | c :: s' =>
      if isspace c
      then match cur with
           | [] => split_from [] s'
           | _ => rev cur :: split_from [] s'
           end
      else split_from (c :: cur) s'
  end.

Definition split (s : str) : list str := split_from [] s.

(** [l[i]] for a Python integer [i]: a negative index counts from the end,
    an index out of range raises [IndexError]. *)
Definition py_index {A} (l : list A) (i : Z) : result A :=
  let j := if i <? 0 then i + Z.of_nat (length l) else i in
  if j <? 0 then Raise IndexError
  else match l !! Z.to_nat j with
       | Some a => Ok a
       | None => Raise IndexError
       end.

Definition chr (s : string) : ascii :=
  match s with
  | String c _ => c
  | EmptyString => Ascii.zero
  end.

Definition VALID_CHARS : list ascii :=
  [chr "#"; chr "."; chr "@"; chr "$"; chr "^"; chr " "].

Definition char_in (c : ascii) (l : list ascii) : bool :=
  existsb (Ascii.eqb c) l.

(** ** class World *)

Module World.

Record t := make { init_state : Z * Z; _lines : list str }.

(** The inner loop of [parse] over the characters of line [y], from
    column [x] on.  [init] is the variable [init_state] of [parse].
    A second [@] reaches the [raise] whose message formats the tuple
    [init_state] with [%o]: the formatting raises [TypeError] before a
    [WorldFailure] exists. *)
Fixpoint scan_line (y x : nat) (line : str) (init : option (nat * nat))
  : result (option (nat * nat)) :=
  match line with
  | [] => Ok init
  | ch :: rest =>
      if negb (char_in ch VALID_CHARS)
      then Raise (WorldFailure (invalid_char ch x y))
      else if Ascii.eqb ch (chr "@")
           then match init with
                | Some _ => Raise TypeError
                | None => scan_line y (S x) rest (Some (x, y))
                end
           else scan_line y (S x) rest init
  end.

(** The outer loop of [parse], from line [y] on; [len0] is
    [len(lines[0])]. *)
Fixpoint scan_lines (len0 y : nat) (lines : list str)
    (init : option (nat * nat)) : result (option (nat * nat)) :=
  match lines with
  | [] => Ok init
  | line :: rest =>
      if (0 <? y)%nat && negb (length line =? len0)%nat
      then Raise (WorldFailure (different_length y (length line) len0))
      else init' ← scan_line y 0 line init;
           scan_lines len0 (S y) rest init'
  end.

Definition parse (s : str) : result t :=
  let lines := split s in
  match lines with
  | [] => Raise (WorldFailure no_content)
  | line0 :: _ =>
      init ← scan_lines (length line0) 0 lines None;
      match init with
      | None => Raise (WorldFailure no_initial_state)
      | Some (x, y) =>
          line ← py_index lines (Z.of_nat y);
          Ok (make (Z.of_nat x, Z.of_nat y)
                (<[y := take x line ++ chr "." :: drop (x + 1) line]> lines))
      end
  end.

Definition h (w : t) : Z := Z.of_nat (length (_lines w)).

Definition w (w : t) : result Z :=
  line ← py_index (_lines w) 0; Ok (Z.of_nat (length line)).

(** The method [at]; the name is a keyword here. *)
Definition at_ (w : t) (pos : Z * Z) : result ascii :=
  let '(x, y) := pos in
  line ← py_index (_lines w) y; py_index line x.

(** The property [size]: the width, then the height. *)
Definition size (w : t) : result (Z * Z) :=
  width ← World.w w; Ok (width, h w).

End World.

(** ** Actions *)

(** The four keys of [MOVEMENT]; [act] is modelled on these. *)
Inductive action := ACTION_UP | ACTION_DOWN | ACTION_LEFT | ACTION_RIGHT.

#[global] Instance action_eq_dec : EqDecision action.
Proof. solve_decision. Defined.

Definition action_code (a : action) : nat :=
  match a with
  | ACTION_UP => 0 | ACTION_DOWN => 1 | ACTION_LEFT => 2 | ACTION_RIGHT => 3
  end%nat.

Definition action_of_code (n : nat) : action :=
  match n with
  | 0 => ACTION_UP | 1 => ACTION_DOWN | 2 => ACTION_LEFT | _ => ACTION_RIGHT
  end%nat.

#[global] Instance action_countable : Countable action.
Proof.
  apply (inj_countable' action_code action_of_code). by intros [].
Defined.

Definition MOVEMENT (a : action) : Z * Z :=
  match a with
  | ACTION_UP => (0, -1)
  | ACTION_DOWN => (0, 1)
  | ACTION_LEFT => (-1, 0)
  | ACTION_RIGHT => (1, 0)
  end.

(** [list(MOVEMENT.keys())]: a dict lists its keys in insertion order
    (Python 3.7 and later). *)
Definition ALL_ACTIONS : list action :=
  [ACTION_UP; ACTION_DOWN; ACTION_LEFT; ACTION_RIGHT].

(** ** class Simulation *)

Module Simulation.

Record t := make { _world : World.t; state : Z * Z; score : Z }.

Definition reset (self : t) : t :=
  make (_world self) (World.init_state (_world self)) 0.

(** [Simulation(world)]: the constructor stores the world and resets. *)
Definition init (world : World.t) : t :=
  make world (World.init_state world) 0.

Definition in_terminal_state (self : t) : result bool :=
  c ← World.at_ (_world self) (state self);
  Ok (char_in c [chr "^"; chr "$"]).

Definition x (self : t) : Z := fst (state self).
Definition y (self : t) : Z := snd (state self).

(** The conjunction is evaluated left to right and stops at the first
    false operand, so the world is indexed only inside its bounds. *)
Definition _valid_move (self : t) (new_state : Z * Z) : result bool :=
  let '(new_x, new_y) := new_state in
  if negb (0 <=? new_x) then Ok false else
  w ← World.w (_world self);
  if negb (new_x <? w) then Ok false else
  if negb (0 <=? new_y) then Ok false else
  if negb (new_y <? World.h (_world self)) then Ok false else
  c ← World.at_ (_world self) new_state;
  Ok (char_in c [chr "."; chr "^"; chr "$"]).

(** [act] returns the reward together with the simulation as mutated. *)
Definition act (self : t) (a : action) : result (Z * t) :=
  let reward := -1 in
  let delta := MOVEMENT a in
  let new_state := (x self + fst delta, y self + snd delta) in
  valid ← _valid_move self new_state;
  if valid : bool
  then c ← World.at_ (_world self) new_state;
       let reward := if Ascii.eqb c (chr "^") then -1000 else reward in
       Ok (reward, make (_world self) new_state (score self + reward))
  else Ok (reward, make (_world self) (state self) (score self + reward)).

End Simulation.

(** ** class QTable *)

Module QTable.
Section QTable.
Context {State : Type} `{Countable State}.

(** [_table] is a [defaultdict] whose factory returns [init_reward]. *)
Record t := make {
  init_reward : float;
  _table : gmap (State * action) float
}.

(** [QTable(init_reward)] *)
Definition init (init_reward : float) : t := make init_reward ∅.

(** Indexing a [defaultdict] at a missing key stores the default under
    that key and returns it: [get] returns the value and the table as
    the read leaves it. *)
Definition get (self : t) (state : State) (a : action) : float * t :=
  match _table self !! (state, a) with
  | Some v => (v, self)
  | None =>
      (init_reward self,
       make (init_reward self)
            (<[(state, a) := init_reward self]> (_table self)))
  end.

Definition set (self : t) (state : State) (a : action) (value : float) : t :=
  make (init_reward self) (<[(state, a) := value]> (_table self)).

(** The loop of [best] over the actions still to visit. *)
Fixpoint best_loop (actions : list action) (state : State)
    (best_action : option action) (best_value : float) (self : t)
  : option action * float * t :=
  match actions with
  | [] => (best_action, best_value, self)
  | a :: rest =>
      let '(value, self') := get self state a in
      if PrimFloat.ltb best_value value
      then best_loop rest state (Some a) value self'
      else best_loop rest state best_action best_value self'
  end.

Definition best (self : t) (state : State) : option action * float * t :=
  best_loop ALL_ACTIONS state None (-1e20)%float self.

End QTable.
Arguments t State {_ _}.
End QTable.

(** ** Policies

    A policy is an object with a method [pick_action(state)].  The method
    runs in an environment [Env] holding whatever mutable objects it
    touches (the random generator, a shared table) and may return [None]. *)

Definition policy (State Env : Type) := State -> Env -> option action * Env.

Module GreedyQ.
Section GreedyQ.
Context {State : Type} `{Countable State}.

(** The policy holds a reference [_q] to a table it shares with the
    learner: the table is the environment. *)
Definition pick_action : policy State (QTable.t State) :=
  fun state q => let '(a, _, q') := QTable.best q state in (a, q').

End GreedyQ.
End GreedyQ.

Module RandomPolicy.
Section RandomPolicy.
Context {State Env : Type}.
(** [random.choice] on the generator held in the environment. *)
Variable random_choice : list action -> Env -> action * Env.

Definition pick_action : policy State Env :=
  fun _ env => let '(a, env') := random_choice ALL_ACTIONS env in (Some a, env').

End RandomPolicy.
End RandomPolicy.

Module EpsilonPolicy.
Section EpsilonPolicy.
Context {State Env : Type}.
(** [random.random()] on the generator held in the environment. *)
Variable random_random : Env -> float * Env.

Record t := make {
  _policy_a : policy State Env;
  _policy_b : policy State Env;
  _epsilon : float
}.

Definition pick_action (self : t) : policy State Env :=
  fun state env =>
    let '(sample, env') := random_random env in
    if PrimFloat.ltb sample (_epsilon self)
    then _policy_b self state env'
    else _policy_a self state env'.

End EpsilonPolicy.
End EpsilonPolicy.

(** ** class QLearner *)

Module QLearner.
Section QLearner.
Context {State : Type} `{Countable State}.

(** The learner's [_q] refers to the table shared with the policy; the
    table is passed in and the updated table returned. *)
Record t := make { _alpha : float; _gamma : float }.

Definition observe (self : t) (q : QTable.t State)
    (old_state : State) (a : action) (reward : float) (new_state : State)
  : QTable.t State :=
  let '(prev, q1) := QTable.get q old_state a in
  let '(_, best_value, q2) := QTable.best q1 new_state in
  QTable.set q2 old_state a
    (prev + _alpha self * (reward + _gamma self * best_value - prev))%float.

End QLearner.
End QLearner.

(** ** Key codes of the interactive game

    Of the interactive game the two drivers are modelled, with the key
    that [window.getch()] returns as an argument.  [Game], which paints a
    curses window around them, and the entry points [start] and [main]
    are left out. *)

Definition KEY_Q : Z := 113.
Definition KEY_ESC : Z := 27.
Definition KEY_SPACE : Z := 32.
Definition KEY_UP : Z := 259.
Definition KEY_DOWN : Z := 258.
Definition KEY_LEFT : Z := 106.
Definition KEY_RIGHT : Z := 107.

(** [KEY_ACTION_MAP.get(ch)]: [None] when [ch] is not a key of the map. *)
Definition KEY_ACTION_MAP (ch : Z) : option action :=
  if ch =? KEY_UP then Some ACTION_UP
  else if ch =? KEY_DOWN then Some ACTION_DOWN
  else if ch =? KEY_LEFT then Some ACTION_LEFT
  else if ch =? KEY_RIGHT then Some ACTION_RIGHT
  else None.

Definition QUIT_KEYS : list Z := [KEY_Q; KEY_ESC].

(** ** class HumanPlayer *)

Module HumanPlayer.

Record t := make { _ch : Z }.

(** [HumanPlayer()] *)
Definition init : t := make 0.

Definition should_quit (self : t) : bool :=
  existsb (Z.eqb (_ch self)) QUIT_KEYS.

(** The [elif] of [interact]: the key is compared with [KEY_SPACE]
    first, the simulation is asked only when it is the space key. *)
Definition interact_elif (ch : Z) (sim : Simulation.t)
  : result Simulation.t :=
  if ch =? KEY_SPACE
  then terminal ← Simulation.in_terminal_state sim;
       if terminal : bool then Ok (Simulation.reset sim) else Ok sim
  else Ok sim.

(** [interact(sim, window)], where [ch] is what [window.getch()]
    returns.  The player and the simulation are returned as mutated. *)
Definition interact (self : t) (ch : Z) (sim : Simulation.t)
  : result (t * Simulation.t) :=
  let self' := make ch in
  match KEY_ACTION_MAP ch with
  | Some a =>
      terminal ← Simulation.in_terminal_state sim;
      if negb terminal
      then r ← Simulation.act sim a; Ok (self', r.2)
      else sim' ← interact_elif ch sim; Ok (self', sim')
  | None => sim' ← interact_elif ch sim; Ok (self', sim')
  end.

End HumanPlayer.

(** ** class MachinePlayer *)

(** The float that a Python integer becomes when it meets a float in
    arithmetic: the nearest binary64 number (the integer itself for the
    rewards [-1] and [-1000]). *)
Definition float_of_int (z : Z) : float :=
  SF2Prim (binary_normalize prec emax z 0 false).

Module StubLearner.
Section StubLearner.
Context {Env : Type}.

Definition observe (old_state : Z * Z) (a : action) (reward : Z)
    (new_state : Z * Z) (env : Env) : Env := env.

End StubLearner.
End StubLearner.

Module MachinePlayer.
Section MachinePlayer.
Context {Env : Type}.

(** A learner is an object with a method
    [observe(old_state, action, reward, new_state)], run in the
    environment it shares with the policy. *)
Definition learner := Z * Z -> action -> Z -> Z * Z -> Env -> Env.

Record t := make {
  _policy : policy (Z * Z) Env;
  _learner : learner
}.

Definition should_quit (self : t) : bool := false.

(** How a call of [interact] ends: it returns, leaving the simulation
    and the environment as mutated, or it raises.  [sim.act(None)] raises
    [KeyError] at [MOVEMENT[action]]. *)
Inductive outcome :=
| Returns (sim : Simulation.t) (env : Env)
| KeyError
| Raises (e : exn).

(** [interact(sim, window)]; the two calls of [time.sleep] only take
    time. *)
Definition interact (self : t) (sim : Simulation.t) (env : Env) : outcome :=
  match Simulation.in_terminal_state sim with
  | Raise e => Raises e
  | Ok true => Returns (Simulation.reset sim) env
  | Ok false =>
      let old_state := Simulation.state sim in
      let '(picked, env1) := _policy self (Simulation.state sim) env in
      match picked with
      | None => KeyError
      | Some a =>
          match Simulation.act sim a with
          | Raise e => Raises e
          | Ok (reward, sim') =>
              Returns sim'
                (_learner self old_state a reward (Simulation.state sim') env1)
          end
      end
  end.

End MachinePlayer.
Arguments t Env : clear implicits.
Arguments outcome Env : clear implicits.
End MachinePlayer.

(** A [QLearner] as the learner of a [MachinePlayer]: the integer reward
    of [act] enters the arithmetic of [observe] as a float. *)
Definition q_learner (l : QLearner.t) : MachinePlayer.learner :=
  fun old_state a reward new_state q =>
    QLearner.observe l q old_state a (float_of_int reward) new_state.

(** * Properties *)

(** ** Vocabulary: the grid *)

(** The character of the cell at [pos] when [pos] lies inside the grid,
    read without Python's wrap-around of negative indices. *)
Definition cell (w : World.t) (pos : Z * Z) : option ascii :=
  let '(x, y) := pos in
  if (0 <=? x) && (0 <=? y)
  then line ← World._lines w !! Z.to_nat y; line !! Z.to_nat x
  else None.

Definition width (w : World.t) : Z :=
  match World._lines w with
  | [] => 0
  | line0 :: _ => Z.of_nat (length line0)
  end.

Definition in_bounds (w : World.t) (pos : Z * Z) : Prop :=
  0 <= fst pos < width w /\ 0 <= snd pos < World.h w.

(** A world has at least one line and all its lines have one length. *)
Definition rectangular (w : World.t) : Prop :=
  World._lines w <> [] /\
  forall line, line ∈ World._lines w -> Z.of_nat (length line) = width w.

(** The cells an agent may stand on: Floor, Trap and Goal. *)
Definition passable (c : ascii) : bool :=
  char_in c [chr "."; chr "^"; chr "$"].

(** A rectangular world whose start cell is Floor. *)
Definition well_formed (w : World.t) : Prop :=
  rectangular w /\ cell w (World.init_state w) = Some (chr ".").

(** The agent stands inside the grid on a Floor, Trap or Goal cell. *)
Definition on_passable (sim : Simulation.t) : Prop :=
  exists c, cell (Simulation._world sim) (Simulation.state sim) = Some c
            /\ passable c = true.

(** The simulations a driver can reach from [Simulation(world)]. *)
Inductive reachable (w : World.t) : Simulation.t -> Prop :=
| reach_init : reachable w (Simulation.init w)
| reach_reset sim : reachable w sim -> reachable w (Simulation.reset sim)
| reach_act sim a reward sim' :
    reachable w sim ->
    Simulation.act sim a = Ok (reward, sim') ->
    reachable w sim'.

(** The worlds of the two simulation tests, as [parse] returns them. *)
Definition trap_world : World.t :=
  World.make (0, 0) [list_ascii_of_string ".^"].
Definition floor_world : World.t :=
  World.make (0, 0) [list_ascii_of_string ".."].

(** The text [parse] is documented to accept, in the words of its
    docstring: equal-length lines of [VALID_CHARS] with one [@].  The
    lines of a text are what a newline separates. *)
Fixpoint lines_from (cur : str) (s : str) : list str :=
  match s with
  | [] => [rev cur]
  | c :: s' =>
      if Ascii.eqb c (ascii_of_nat 10)
      then rev cur :: lines_from [] s'
      else lines_from (c :: cur) s'
  end.

Definition documented_input (s : str) : bool :=
  match lines_from [] s with
  | [] => false
  | line0 :: rest =>
      forallb (fun line => (length line =? length line0)%nat) rest
      && forallb (fun c => char_in c VALID_CHARS) (concat (line0 :: rest))
      && (length (filter (fun c => c = chr "@") s) =? 1)%nat
  end.

(** The number of [@] in a text. *)
Definition count_start (s : str) : nat :=
  length (filter (fun c => c = chr "@") s).

(** The number of start positions the loops of [parse] hold. *)
Definition found (init : option (nat * nat)) : nat :=
  match init with Some _ => 1%nat | None => 0%nat end.

(** The characters left in a map that [parse] returns. *)
Definition map_char (c : ascii) : Prop :=
  c = chr "#" \/ c = chr "." \/ c = chr "$" \/ c = chr "^".

(** Lines of one length made of [VALID_CHARS]. *)
Definition valid_lines (lines : list str) : Prop :=
  (forall line, line ∈ lines -> length line = length (hd [] lines)) /\
  (forall line c, line ∈ lines -> c ∈ line -> char_in c VALID_CHARS = true).

(** Python's reading of an index: a negative one counts from the end. *)
Definition wrap (i len : Z) : Z := if i <? 0 then i + len else i.

(** A driver's successive calls of [act]: the rewards in order and the
    simulation they leave. *)
Fixpoint acts (actions : list action) (sim : Simulation.t)
  : result (list Z * Simulation.t) :=
  match actions with
  | [] => Ok ([], sim)
  | a :: rest =>
      r ← Simulation.act sim a;
      rs ← acts rest r.2;
      Ok (r.1 :: rs.1, rs.2)
  end.

Definition sum_rewards (rewards : list Z) : Z := foldr Z.add 0 rewards.

Definition opposite (a : action) : action :=
  match a with
  | ACTION_UP => ACTION_DOWN
  | ACTION_DOWN => ACTION_UP
  | ACTION_LEFT => ACTION_RIGHT
  | ACTION_RIGHT => ACTION_LEFT
  end.

(** ** Vocabulary: the table as a function *)

Section TableVocabulary.
Context {State : Type} `{Countable State}.
Implicit Types (q : QTable.t State) (s : State) (a : action).

(** What the table holds for a key, stored or by default. *)
Definition value_of q (k : State * action) : float :=
  default (QTable.init_reward q) (QTable._table q !! k).

(** Two tables that answer every read alike. *)
Definition same_values q1 q2 : Prop :=
  QTable.init_reward q1 = QTable.init_reward q2 /\
  forall k, value_of q1 k = value_of q2 k.

(** The scan of [best] over a function from actions to values. *)
Fixpoint best_of (value : action -> float) (actions : list action)
    (best_action : option action) (best_value : float)
  : option action * float :=
  match actions with
  | [] => (best_action, best_value)
  | a :: rest =>
      if PrimFloat.ltb best_value (value a)
      then best_of value rest (Some a) (value a)
      else best_of value rest best_action best_value
  end.

(** The calls a client makes on a table, and their results. *)
Inductive call :=
| call_get (s : State) (a : action)
| call_set (s : State) (a : action) (v : float)
| call_best (s : State).

Inductive answer :=
| ans_get (v : float)
| ans_set
| ans_best (a : option action) (v : float).

Definition perform (c : call) q : answer * QTable.t State :=
  match c with
  | call_get s a => let '(v, q') := QTable.get q s a in (ans_get v, q')
  | call_set s a v => (ans_set, QTable.set q s a v)
  | call_best s =>
      let '(a, v, q') := QTable.best q s in (ans_best a v, q')
  end.

Fixpoint run (calls : list call) q : list answer :=
  match calls with
  | [] => []
  | c :: rest => let '(r, q') := perform c q in r :: run rest q'
  end.

End TableVocabulary.

(** A generator that replays a list of samples. *)
Definition replay (samples : list float) : float * list float :=
  match samples with
  | [] => (0%float, [])
  | u :: rest => (u, rest)
  end.

Section Grid.
Variable w : World.t.
Hypothesis Hrect : rectangular w.

Lemma py_index_in_range {A} (l : list A) (i : Z) :
  0 <= i -> py_index l i = match l !! Z.to_nat i with
                           | Some a => Ok a
                           | None => Raise IndexError
                           end.
Proof.
  intros Hi. unfold py_index.
  destruct (Z.ltb_spec i 0); [lia|].
  destruct (Z.ltb_spec i 0); [lia|]. reflexivity.
Qed.

Lemma world_w : World.w w = Ok (width w).
Proof.
  destruct Hrect as [Hne _]. unfold World.w, width.
  destruct (World._lines w) as [|line0 rest]; [done|].
  reflexivity.
Qed.

Lemma cell_in_bounds pos : is_Some (cell w pos) <-> in_bounds w pos.
Proof.
  destruct pos as [x y]. unfold cell, in_bounds, World.h. simpl.
  destruct Hrect as [_ Hlen].
  destruct (Z.leb_spec 0 x), (Z.leb_spec 0 y); simpl;
    try (split; [intros [? [=]] | lia]).
  destruct (World._lines w !! Z.to_nat y) as [line|] eqn:Hy; simpl.
  - pose proof (lookup_lt_Some _ _ _ Hy).
    assert (Hw : Z.of_nat (length line) = width w).
    { apply Hlen. eapply list_elem_of_lookup_2. exact Hy. }
    rewrite lookup_lt_is_Some. lia.
  - apply lookup_ge_None in Hy. split; [intros [? [=]] | lia].
Qed.

Lemma at_in_bounds pos c :
  cell w pos = Some c -> World.at_ w pos = Ok c.
Proof.
  destruct pos as [x y]. unfold cell, World.at_.
  destruct (Z.leb_spec 0 x), (Z.leb_spec 0 y); simpl; try done.
  rewrite py_index_in_range by done.
  destruct (World._lines w !! Z.to_nat y) as [line|]; simpl; [|done].
  intros Hx. rewrite py_index_in_range by done. by rewrite Hx.
Qed.

(** [_valid_move] never raises on a rectangular world: it tells whether
    the cell exists and is Floor, Trap or Goal. *)
Lemma valid_move_cell sim pos :
  Simulation._world sim = w ->
  Simulation._valid_move sim pos
  = Ok (match cell w pos with Some c => passable c | None => false end).
Proof.
  intros Hw. destruct pos as [x y]. unfold Simulation._valid_move.
  cbv beta iota. rewrite Hw, world_w.
  destruct (cell w (x, y)) as [c|] eqn:Hc.
  - rewrite (at_in_bounds _ _ Hc). simpl.
    assert (Hb : in_bounds w (x, y)) by (apply cell_in_bounds; eauto).
    destruct Hb as [Hx Hy]. simpl in Hx, Hy.
    destruct (Z.leb_spec 0 x); [|lia]. simpl.
    destruct (Z.ltb_spec x (width w)); [|lia]. simpl.
    destruct (Z.leb_spec 0 y); [|lia]. simpl.
    destruct (Z.ltb_spec y (World.h w)); [|lia]. reflexivity.
  - simpl. assert (Hb : ~ in_bounds w (x, y)).
    { rewrite <- cell_in_bounds, Hc. by intros [? [=]]. }
    unfold in_bounds in Hb. simpl in Hb.
    destruct (Z.leb_spec 0 x); [|done]. simpl.
    destruct (Z.ltb_spec x (width w)); [|done]. simpl.
    destruct (Z.leb_spec 0 y); [|done]. simpl.
    destruct (Z.ltb_spec y (World.h w)); [|done]. lia.
Qed.

(** What [act] computes on a rectangular world. *)
Lemma act_cell sim a :
  Simulation._world sim = w ->
  let cand := (Simulation.x sim + fst (MOVEMENT a),
               Simulation.y sim + snd (MOVEMENT a)) in
  Simulation.act sim a =
  match cell w cand with
  | Some c =>
      if passable c
      then let reward := if Ascii.eqb c (chr "^") then -1000 else -1 in
           Ok (reward,
               Simulation.make w cand (Simulation.score sim + reward))
      else Ok (-1, Simulation.make w (Simulation.state sim)
                     (Simulation.score sim + -1))
  | None => Ok (-1, Simulation.make w (Simulation.state sim)
                      (Simulation.score sim + -1))
  end.
Proof.
  intros Hw cand. unfold Simulation.act. fold cand.
  rewrite (valid_move_cell _ cand Hw), Hw. cbn [mbind result_bind].
  destruct (cell w cand) as [c|] eqn:Hc; [|done].
  destruct (passable c); [|done].
  by rewrite (at_in_bounds _ _ Hc).
Qed.

End Grid.

#[local] Arguments char_in : simpl never.
#[local] Arguments chr : simpl never.
#[local] Arguments World.at_ : simpl never.

Lemma passable_spec c :
  passable c = true <-> c = chr "." \/ c = chr "^" \/ c = chr "$".
Proof.
  unfold passable, char_in. simpl.
  rewrite !orb_true_iff, !Ascii.eqb_eq. intuition discriminate.
Qed.

Lemma movement_nonzero a : MOVEMENT a <> (0, 0).
Proof. by destruct a. Qed.

(** The candidate cell of a move is never the cell the agent is on. *)
Lemma candidate_differs sim a :
  Simulation.state sim
  <> (Simulation.x sim + (MOVEMENT a).1, Simulation.y sim + (MOVEMENT a).2).
Proof.
  unfold Simulation.x, Simulation.y.
  destruct (Simulation.state sim) as [x y]. pose proof (movement_nonzero a).
  destruct (MOVEMENT a) as [dx dy]. simpl. intros [= Hx Hy].
  assert (dx = 0) by lia. assert (dy = 0) by lia. congruence.
Qed.

(** ** What [parse] returns *)

Lemma scan_line_ok y x0 line init r :
  World.scan_line y x0 line init = Ok r ->
  r = init \/ exists x, r = Some (x, y) /\ (x0 <= x < x0 + length line)%nat.
Proof.
  revert x0 init. induction line as [|ch rest IH]; intros x0 init; simpl.
  - intros [= <-]. by left.
  - destruct (negb (char_in ch VALID_CHARS)); [done|].
    destruct (Ascii.eqb ch _).
    + destruct init; [done|]. intros Hr.
      destruct (IH _ _ Hr) as [-> | (x & -> & Hx)].
      * right. exists x0. split; [done | lia].
      * right. exists x. split; [done | lia].
    + intros Hr. destruct (IH _ _ Hr) as [-> | (x & -> & Hx)].
      * by left.
      * right. exists x. split; [done | lia].
Qed.

Lemma scan_lines_ok len0 y0 lines init r :
  World.scan_lines len0 y0 lines init = Ok r ->
  (forall i l, lines !! i = Some l -> (0 < y0 + i)%nat -> length l = len0) /\
  (r = init \/
   exists x i l, r = Some (x, (y0 + i)%nat) /\ lines !! i = Some l
                 /\ (x < length l)%nat).
Proof.
  revert y0 init. induction lines as [|line rest IH]; intros y0 init; simpl.
  - intros [= <-]. split; [by intros i l; rewrite lookup_nil | by left].
  - destruct ((0 <? y0)%nat && negb (length line =? len0)%nat) eqn:Hlen;
      [done|].
    destruct (World.scan_line y0 0 line init) as [init'|] eqn:Hline;
      [|done].
    cbn [mbind result_bind]. intros Hr.
    destruct (IH _ _ Hr) as [Hall Hinit]. split.
    + intros [|i] l; simpl.
      * intros [= <-] Hy. apply andb_false_iff in Hlen as [Hlen|Hlen].
        -- apply Nat.ltb_ge in Hlen. lia.
        -- apply negb_false_iff, Nat.eqb_eq in Hlen. done.
      * intros Hl _. apply (Hall i l Hl). lia.
    + destruct Hinit as [-> | (x & i & l & -> & Hl & Hx)].
      * destruct (scan_line_ok _ _ _ _ _ Hline) as [-> | (x & -> & Hx)].
        -- by left.
        -- right. exists x, 0%nat, line.
           rewrite Nat.add_0_r. split; [done|]. split; [done | lia].
      * right. exists x, (S i), l.
        replace (y0 + S i)%nat with (S y0 + i)%nat by lia. done.
Qed.

(** A world that [parse] returns is rectangular and its start cell, the
    one that held [@], is Floor. *)
Lemma parse_well_formed s w : World.parse s = Ok w -> well_formed w.
Proof.
  unfold World.parse.
  destruct (split s) as [|line0 rest] eqn:Hsplit; [done|].
  set (lines := line0 :: rest).
  destruct (World.scan_lines (length line0) 0 lines None) as [init|] eqn:Hscan;
    [|done].
  cbn [mbind result_bind].
  destruct (scan_lines_ok _ _ _ _ _ Hscan) as [Hall Hinit].
  destruct Hinit as [-> | (x & y & l & -> & Hl & Hx)]; [done|].
  simpl (0 + y)%nat. rewrite py_index_in_range by lia.
  rewrite Nat2Z.id, Hl. cbn [mbind result_bind]. intros [= <-].
  set (line' := take x l ++ _ :: drop (x + 1) l).
  assert (Hlen' : length line' = length l).
  { unfold line'. rewrite length_app, length_take. simpl.
    rewrite length_drop. lia. }
  assert (Hlen : forall i l0, lines !! i = Some l0 -> length l0 = length line0).
  { intros [|i] l0 Hl0; [by injection Hl0 as <- | apply (Hall _ _ Hl0); lia]. }
  assert (Hwidth : width (World.make (Z.of_nat x, Z.of_nat y)
                            (<[y := line']> lines))
                   = Z.of_nat (length line0)).
  { unfold width. simpl. destruct y as [|y]; simpl; [|done].
    injection Hl as <-. by rewrite Hlen'. }
  split; [split|].
  - simpl. intros Heq. apply (f_equal length) in Heq.
    rewrite length_insert in Heq. done.
  - intros l0 Hin. rewrite Hwidth. f_equal.
    apply list_elem_of_lookup in Hin as [i Hi]. simpl in Hi.
    destruct (decide (i = y)) as [->|Hne].
    + rewrite list_lookup_insert_eq in Hi by (by eapply lookup_lt_Some).
      injection Hi as <-. rewrite Hlen'. by eapply Hlen.
    + rewrite list_lookup_insert_ne in Hi by done. by eapply Hlen.
  - unfold cell. simpl.
    destruct (Z.leb_spec 0 (Z.of_nat x)); [|lia].
    destruct (Z.leb_spec 0 (Z.of_nat y)); [|lia]. simpl.
    rewrite !Nat2Z.id.
    rewrite list_lookup_insert_eq by (by eapply lookup_lt_Some). simpl.
    apply list_lookup_middle. rewrite length_take. lia.
Qed.

(** ** Claims about [parse] *)

(** [test_size], [test_init_state] and [test_parse_no_init_state_fails]. *)
Example parse_size :
  (w ← World.parse (list_ascii_of_string "@$");
   width_ ← World.w w; Ok (width_, World.h w)) = Ok (2, 1).
Proof. reflexivity. Qed.

Example parse_init_state :
  World.init_state <$>
    (match World.parse
             (list_ascii_of_string "####" ++ ascii_of_nat 10
              :: list_ascii_of_string "#.@#" ++ ascii_of_nat 10
              :: list_ascii_of_string "####") with
     | Ok w => Some w
     | Raise _ => None
     end) = Some (2, 1).
Proof. reflexivity. Qed.

Example parse_no_init_state_fails :
  World.parse (list_ascii_of_string "#") = Raise (WorldFailure no_initial_state).
Proof. reflexivity. Qed.

(** C5. The text [@. #] is one line of [VALID_CHARS] with one [@], the
    input the docstring of [parse] describes, and [parse] raises
    [WorldFailure]: [s.split()] cuts the line at the blank into [@.] and
    [#], and the second piece is reported as a line of a different
    length. *)
Theorem parse_blank_cuts_line :
  documented_input (list_ascii_of_string "@. #") = true /\
  split (list_ascii_of_string "@. #")
  = [list_ascii_of_string "@."; list_ascii_of_string "#"] /\
  World.parse (list_ascii_of_string "@. #")
  = Raise (WorldFailure (different_length 1 1 2)).
Proof. repeat split. Qed.

(** A second [@] does not raise [WorldFailure]: formatting the message
    raises [TypeError]. *)
Example parse_second_start :
  World.parse (list_ascii_of_string "@@") = Raise TypeError.
Proof. reflexivity. Qed.

(** X20. [parse] never lets an [IndexError] escape: the line it
    rewrites is always there. *)
Lemma parse_no_index_error s : World.parse s <> Raise IndexError.
Proof.
  unfold World.parse.
  destruct (split s) as [|line0 rest] eqn:Hsplit; [done|].
  set (lines := line0 :: rest).
  destruct (World.scan_lines (length line0) 0 lines None) as [init|e] eqn:Hscan.
  - cbn [mbind result_bind].
    destruct (scan_lines_ok _ _ _ _ _ Hscan) as [_ Hinit].
    destruct Hinit as [-> | (x & y & l & -> & Hl & Hx)]; [done|].
    simpl (0 + y)%nat. rewrite py_index_in_range by lia.
    by rewrite Nat2Z.id, Hl.
  - cbn [mbind result_bind]. intros [= ->]. revert Hscan.
    generalize (length line0) 0%nat (@None (nat * nat)).
    induction lines as [|line rest' IH]; intros len0 y init; simpl; [done|].
    destruct (_ && _); [done|].
    destruct (World.scan_line y 0 line init) as [init'|e] eqn:Hline.
    + cbn [mbind result_bind]. apply IH.
    + cbn [mbind result_bind]. intros [= ->]. revert Hline.
      generalize 0%nat. revert init.
      induction line as [|ch line' IHl]; intros init x; simpl; [done|].
      destruct (negb _); [done|]. destruct (Ascii.eqb _ _).
      * destruct init; [done|]. apply IHl.
      * apply IHl.
Qed.

(** ** The simulation *)

Lemma reachable_world w sim : reachable w sim -> Simulation._world sim = w.
Proof.
  induction 1 as [|sim _ IH|sim a reward sim' _ IH Hact]; simpl; try done.
  unfold Simulation.act in Hact.
  destruct (Simulation._valid_move sim _) as [[]|]; simpl in Hact; try done.
  - destruct (World.at_ _ _); simpl in Hact; [|done]. by injection Hact as _ <-.
  - by injection Hact as _ <-.
Qed.

Lemma act_on_passable w sim a :
  rectangular w -> Simulation._world sim = w -> on_passable sim ->
  exists reward sim',
    Simulation.act sim a = Ok (reward, sim') /\
    Simulation._world sim' = w /\ on_passable sim'.
Proof.
  intros Hrect Hw (c0 & Hc0 & Hp0). rewrite (act_cell w Hrect sim a Hw).
  rewrite Hw in Hc0. cbv zeta.
  destruct (cell w (_ + _, _)) as [c|] eqn:Hc;
    [destruct (passable c) eqn:Hp|];
    eexists _, _; (split; [reflexivity|]); (split; [done|]);
    unfold on_passable; simpl; eauto.
Qed.

Lemma reachable_on_passable w sim :
  well_formed w -> reachable w sim -> on_passable sim.
Proof.
  intros [Hrect Hstart].
  induction 1 as [|sim Hreach IH|sim a reward sim' Hreach IH Hact].
  - exists (chr "."). by split.
  - exists (chr "."). simpl. rewrite (reachable_world _ _ Hreach). by split.
  - destruct (act_on_passable w sim a Hrect (reachable_world _ _ Hreach) IH)
      as (r & sim2 & Hact2 & _ & Hinv).
    rewrite Hact in Hact2. by injection Hact2 as _ ->.
Qed.

Lemma terminal_spec c :
  char_in c [chr "^"; chr "$"] = true <-> c = chr "^" \/ c = chr "$".
Proof.
  unfold char_in. simpl.
  rewrite !orb_true_iff, !Ascii.eqb_eq. intuition discriminate.
Qed.

Lemma in_terminal_state_cell w sim c :
  rectangular w -> Simulation._world sim = w ->
  cell w (Simulation.state sim) = Some c ->
  Simulation.in_terminal_state sim = Ok (char_in c [chr "^"; chr "$"]).
Proof.
  intros Hrect Hw Hc. unfold Simulation.in_terminal_state.
  by rewrite Hw, (at_in_bounds w _ _ Hc).
Qed.

Example parse_trap_world :
  World.parse (list_ascii_of_string "@^") = Ok trap_world.
Proof. reflexivity. Qed.

Example parse_floor_world :
  World.parse (list_ascii_of_string "@.") = Ok floor_world.
Proof. reflexivity. Qed.

Lemma one_line_rectangular pos (line : str) :
  rectangular (World.make pos [line]).
Proof.
  split; [done|]. intros l Hin. simpl in Hin.
  apply list_elem_of_singleton in Hin as ->. reflexivity.
Qed.

Lemma trap_world_well_formed : well_formed trap_world.
Proof. split; [apply one_line_rectangular | reflexivity]. Qed.

(** [test_act_accumulates_score] *)
Example act_accumulates_score :
  (r1 ← Simulation.act (Simulation.init floor_world) ACTION_RIGHT;
   r2 ← Simulation.act r1.2 ACTION_LEFT;
   Ok (Simulation.score r2.2)) = Ok (-2).
Proof. reflexivity. Qed.

(** ** Claims about the simulation *)

(** [act] has been rewritten to its result: give the reward and the
    simulation it returns, and split what is claimed of them. *)
Ltac act_returns :=
  eexists _, _; split; [reflexivity|]; simpl; split_and!; try done.

(** C1. On a world whose lines have one length, [act] returns a reward
    and a simulation: the reward is -1000 when the candidate cell (the
    position plus the unit vector of the action) is in bounds and is a
    Trap, and -1 otherwise; the position becomes the candidate exactly
    when the candidate is in bounds and is Floor, Trap or Goal, and is
    unchanged otherwise; the score grows by the reward in both cases. *)
Theorem act_reward_position_score (sim : Simulation.t) (a : action) :
  rectangular (Simulation._world sim) ->
  let w := Simulation._world sim in
  let cand := (Simulation.x sim + (MOVEMENT a).1,
               Simulation.y sim + (MOVEMENT a).2) in
  exists reward sim',
    Simulation.act sim a = Ok (reward, sim') /\
    (in_bounds w cand /\ cell w cand = Some (chr "^") -> reward = -1000) /\
    (~ (in_bounds w cand /\ cell w cand = Some (chr "^")) -> reward = -1) /\
    (Simulation.state sim' = cand <->
     in_bounds w cand /\
     exists c, cell w cand = Some c
               /\ (c = chr "." \/ c = chr "^" \/ c = chr "$")) /\
    (Simulation.state sim' <> cand ->
     Simulation.state sim' = Simulation.state sim) /\
    Simulation.score sim' = Simulation.score sim + reward /\
    Simulation._world sim' = w.
Proof.
  intros Hrect w cand.
  pose proof (candidate_differs sim a) as Hne. fold cand in Hne.
  rewrite (act_cell w Hrect sim a eq_refl). fold cand. cbv zeta.
  destruct (cell w cand) as [c|] eqn:Hc.
  - assert (Hb : in_bounds w cand) by (apply cell_in_bounds; eauto).
    destruct (passable c) eqn:Hp.
    + apply passable_spec in Hp. act_returns.
      * intros [_ [= ->]]. reflexivity.
      * intros Hno. destruct (Ascii.eqb_spec c (chr "^")) as [->|]; [|done].
        by destruct Hno.
      * split; [eauto | done].
    + eexists _, _. split; [reflexivity|]. simpl.
      assert (Hnp : ~ (c = chr "." \/ c = chr "^" \/ c = chr "$")).
      { rewrite <- passable_spec. congruence. }
      split_and!; try done.
      * intros [_ [= ->]]. tauto.
      * split; [done|]. intros (_ & c' & [= <-] & Hc'). tauto.
  - assert (Hb : ~ in_bounds w cand).
    { rewrite <- cell_in_bounds, Hc by done. by intros [? [=]]. }
    act_returns; tauto.
Qed.

Lemma act_reward_position_score_witness :
  exists reward sim',
    Simulation.act (Simulation.init trap_world) ACTION_RIGHT
    = Ok (reward, sim').
Proof.
  destruct (act_reward_position_score (Simulation.init trap_world)
              ACTION_RIGHT (one_line_rectangular _ _))
    as (reward & sim' & Hact & _).
  exists reward, sim'. exact Hact.
Defined.

(** C3. In a world returned by [parse], for every simulation reachable
    from [Simulation(world)] by [reset] and [act]: [in_terminal_state]
    returns, and it returns true exactly when the cell under the agent is
    Trap or Goal; right after [reset] it returns false, the start cell
    having been rewritten to Floor by [parse]. *)
Theorem in_terminal_state_iff (s : str) (w : World.t) (sim : Simulation.t) :
  World.parse s = Ok w ->
  reachable w sim ->
  (exists b,
      Simulation.in_terminal_state sim = Ok b /\
      (b = true <->
       cell w (Simulation.state sim) = Some (chr "^") \/
       cell w (Simulation.state sim) = Some (chr "$"))) /\
  cell w (World.init_state w) = Some (chr ".") /\
  Simulation.in_terminal_state (Simulation.reset sim) = Ok false.
Proof.
  intros Hparse Hreach.
  pose proof (parse_well_formed _ _ Hparse) as Hwf.
  pose proof Hwf as [Hrect Hstart].
  pose proof (reachable_world _ _ Hreach) as Hw.
  destruct (reachable_on_passable _ _ Hwf Hreach) as (c & Hc & _).
  rewrite Hw in Hc. split; [|split; [done|]].
  - exists (char_in c [chr "^"; chr "$"]).
    split; [by apply (in_terminal_state_cell w)|].
    rewrite terminal_spec, Hc. split; [intros [->| ->]; auto|].
    intros [[= ->]|[= ->]]; auto.
  - rewrite (in_terminal_state_cell w _ (chr ".")); try done.
    simpl. by rewrite Hw.
Qed.

Lemma in_terminal_state_iff_witness :
  Simulation.in_terminal_state
    (Simulation.reset (Simulation.init trap_world)) = Ok false.
Proof.
  exact (proj2 (proj2 (in_terminal_state_iff _ _ _ parse_trap_world
                         (reach_init trap_world)))).
Defined.

(** C4, as the claim states it, fails: in the world of
    [test_in_terminal_state] the agent enters the trap, the simulation is
    terminal, and [act(ACTION_LEFT)] takes the agent back to the start
    cell, where the simulation is no longer terminal. *)
Lemma act_in_terminal_state_moves :
  let sim := Simulation.make trap_world (1, 0) (-1000) in
  World.parse (list_ascii_of_string "@^") = Ok trap_world /\
  Simulation.act (Simulation.init trap_world) ACTION_RIGHT = Ok (-1000, sim) /\
  Simulation.in_terminal_state sim = Ok true /\
  Simulation.act sim ACTION_LEFT
  = Ok (-1, Simulation.make trap_world (0, 0) (-1001)) /\
  Simulation.in_terminal_state (Simulation.make trap_world (0, 0) (-1001))
  = Ok false.
Proof. repeat split. Qed.

(** C4, amended. [act] does not look at [in_terminal_state]: called in a
    terminal simulation it behaves as in any other.  The agent stays on
    its terminal cell exactly when the candidate cell is out of bounds or
    is not Floor, Trap or Goal; otherwise it moves to the candidate.  The
    score grows by the reward either way. *)
Theorem act_in_terminal_state_unguarded (sim : Simulation.t) (a : action) :
  rectangular (Simulation._world sim) ->
  Simulation.in_terminal_state sim = Ok true ->
  let w := Simulation._world sim in
  let cand := (Simulation.x sim + (MOVEMENT a).1,
               Simulation.y sim + (MOVEMENT a).2) in
  let enterable :=
    exists c, cell w cand = Some c
              /\ (c = chr "." \/ c = chr "^" \/ c = chr "$") in
  exists reward sim',
    Simulation.act sim a = Ok (reward, sim') /\
    (Simulation.state sim' = Simulation.state sim <-> ~ enterable) /\
    (enterable -> Simulation.state sim' = cand) /\
    Simulation.score sim' = Simulation.score sim + reward.
Proof.
  intros Hrect _ w cand enterable.
  assert (Hne : cand <> Simulation.state sim).
  { intros Heq. by apply (candidate_differs sim a). }
  rewrite (act_cell w Hrect sim a eq_refl). fold cand. cbv zeta.
  unfold enterable.
  destruct (cell w cand) as [c|] eqn:Hc.
  - destruct (passable c) eqn:Hp.
    + apply passable_spec in Hp.
      act_returns.
      split; [done|]. intros Hno. destruct Hno. eauto.
    + assert (Hnp : ~ (c = chr "." \/ c = chr "^" \/ c = chr "$")).
      { rewrite <- passable_spec. congruence. }
      act_returns.
      * split; [|done]. intros _ (c' & [= <-] & Hc'). tauto.
      * intros (c' & [= <-] & Hc'). tauto.
  - act_returns.
    + split; [|done]. by intros _ (c' & [=] & _).
    + by intros (c' & [=] & _).
Qed.

Lemma act_in_terminal_state_unguarded_witness :
  exists reward sim',
    Simulation.act (Simulation.make trap_world (1, 0) (-1000)) ACTION_LEFT
    = Ok (reward, sim') /\
    Simulation.state sim' = (0, 0).
Proof.
  destruct (act_in_terminal_state_unguarded
              (Simulation.make trap_world (1, 0) (-1000)) ACTION_LEFT
              (one_line_rectangular _ _) eq_refl)
    as (reward & sim' & Hact & _ & Hmove & _).
  exists reward, sim'. split; [exact Hact|].
  apply Hmove. exists (chr "."). split; [reflexivity | by left].
Defined.

(** C9. In a rectangular world whose start cell is Floor, the agent
    always stands inside the grid on a cell that is not a Wall: this
    holds for [Simulation(world)], [reset] puts the agent back on the
    start cell, [act] always returns and keeps the agent on a Floor, Trap
    or Goal cell inside the grid, and so it holds of every simulation a
    driver can reach. *)
Theorem position_invariant (w : World.t) :
  well_formed w ->
  on_passable (Simulation.init w) /\
  (forall sim, Simulation._world sim = w ->
     Simulation.state (Simulation.reset sim) = World.init_state w /\
     on_passable (Simulation.reset sim)) /\
  (forall sim a, Simulation._world sim = w -> on_passable sim ->
     exists reward sim',
       Simulation.act sim a = Ok (reward, sim') /\
       Simulation._world sim' = w /\ on_passable sim') /\
  (forall sim, Simulation._world sim = w -> on_passable sim ->
     in_bounds w (Simulation.state sim) /\
     cell w (Simulation.state sim) <> Some (chr "#") /\
     cell w (Simulation.state sim) <> Some (chr " ")) /\
  (forall sim, reachable w sim -> on_passable sim).
Proof.
  intros Hwf. pose proof Hwf as [Hrect Hstart].
  split; [|split; [|split; [|split]]].
  - exists (chr "."). by split.
  - intros sim Hw. split; [by rewrite <- Hw|].
    exists (chr "."). simpl. by rewrite Hw.
  - intros sim a Hw Hinv. by apply act_on_passable.
  - intros sim Hw (c & Hc & Hp). rewrite Hw in Hc.
    split; [apply cell_in_bounds; eauto|].
    apply passable_spec in Hp. rewrite Hc.
    split; intros [= ->]; destruct Hp as [|[|]]; discriminate.
  - intros sim. by apply reachable_on_passable.
Qed.

Lemma position_invariant_witness : on_passable (Simulation.init trap_world).
Proof.
  exact (proj1 (position_invariant trap_world trap_world_well_formed)).
Defined.

(** ** Comparisons of floats *)

Lemma SFcompare_antisym x y :
  SFcompare y x = option_map CompOpp (SFcompare x y).
Proof.
  destruct x as [sx|sx| |sx mx ex], y as [sy|sy| |sy my ey]; simpl;
    try reflexivity;
    try (destruct sx; reflexivity); try (destruct sy; reflexivity);
    try (destruct sx, sy; reflexivity).
  destruct sx, sy; simpl; try reflexivity;
    rewrite (Z.compare_antisym ey ex);
    destruct (ey ?= ex)%Z; simpl; try reflexivity;
    change (PosDef.Pos.compare_cont Eq my mx) with (Pos.compare my mx);
    change (PosDef.Pos.compare_cont Eq mx my) with (Pos.compare mx my);
    rewrite (Pos.compare_antisym mx my), ?CompOpp_involutive; reflexivity.
Qed.

(** [x <= y] excludes [y < x]. *)
Lemma leb_not_ltb x y : PrimFloat.leb x y = true -> PrimFloat.ltb y x = false.
Proof.
  rewrite FloatAxioms.leb_spec, FloatAxioms.ltb_spec. unfold SFleb, SFltb.
  rewrite (SFcompare_antisym (Prim2SF x) (Prim2SF y)).
  destruct (SFcompare (Prim2SF x) (Prim2SF y)) as [[]|]; simpl; congruence.
Qed.

Lemma ltb_irrefl x : PrimFloat.ltb x x = false.
Proof.
  rewrite FloatAxioms.ltb_spec. unfold SFltb.
  pose proof (SFcompare_antisym (Prim2SF x) (Prim2SF x)) as Hxx.
  destruct (SFcompare (Prim2SF x) (Prim2SF x)) as [[]|];
    simpl in *; congruence.
Qed.

(** The floats that [== 0] accepts are the two zeros. *)
Lemma eqb_zero x :
  PrimFloat.eqb x 0 = true -> x = 0%float \/ x = (-0)%float.
Proof.
  rewrite FloatAxioms.eqb_spec. unfold SFeqb. intros Hx.
  assert (Hz : exists sgn, Prim2SF x = S754_zero sgn).
  { change (Prim2SF 0) with (S754_zero false) in Hx.
    destruct (Prim2SF x) as [sgn|sgn| |sgn m e]; simpl in Hx;
      eauto; try discriminate; destruct sgn; discriminate. }
  destruct Hz as [sgn Hs]. apply (f_equal SF2Prim) in Hs.
  rewrite SF2Prim_Prim2SF in Hs. subst x.
  destruct sgn; [right|left]; reflexivity.
Qed.

(** ** Reads, writes and the scan of [best] *)

Section TableFacts.
Context {State : Type} `{Countable State}.
Implicit Types (q : QTable.t State) (s : State) (a : action).

Lemma same_values_refl q : same_values q q.
Proof. by split. Qed.

Lemma same_values_trans q1 q2 q3 :
  same_values q1 q2 -> same_values q2 q3 -> same_values q1 q3.
Proof.
  intros [Hd1 Hv1] [Hd2 Hv2]. split; [congruence|].
  intros k. by rewrite Hv1.
Qed.

Lemma get_value q s a : (QTable.get q s a).1 = value_of q (s, a).
Proof.
  unfold QTable.get, value_of.
  by destruct (QTable._table q !! (s, a)).
Qed.

(** A read stores at most the default under a key that had none. *)
Lemma get_same_values q s a : same_values (QTable.get q s a).2 q.
Proof.
  unfold QTable.get.
  destruct (QTable._table q !! (s, a)) as [v|] eqn:Hk; simpl;
    [apply same_values_refl|].
  split; [done|]. intros k. unfold value_of. simpl.
  destruct (decide (k = (s, a))) as [->|Hne].
  - by rewrite lookup_insert_eq, Hk.
  - by rewrite lookup_insert_ne.
Qed.

Lemma get_respects q1 q2 s a :
  same_values q1 q2 ->
  (QTable.get q1 s a).1 = (QTable.get q2 s a).1 /\
  same_values (QTable.get q1 s a).2 (QTable.get q2 s a).2.
Proof.
  intros Hq. split.
  - rewrite !get_value. apply Hq.
  - eapply same_values_trans; [apply get_same_values|].
    eapply same_values_trans; [exact Hq|].
    destruct (get_same_values q2 s a) as [Hd Hv].
    split; [done|]. intros k. by rewrite Hv.
Qed.

Lemma set_value q s a v k :
  value_of (QTable.set q s a v) k
  = if decide (k = (s, a)) then v else value_of q k.
Proof.
  unfold value_of, QTable.set. simpl. case_decide as Hk.
  - subst k. by rewrite lookup_insert_eq.
  - by rewrite lookup_insert_ne.
Qed.

Lemma set_respects q1 q2 s a v :
  same_values q1 q2 ->
  same_values (QTable.set q1 s a v) (QTable.set q2 s a v).
Proof.
  intros [Hd Hv]. split; [done|]. intros k. rewrite !set_value.
  case_decide; [done | apply Hv].
Qed.

Lemma best_of_ext value1 value2 actions best_action best_value :
  (forall a, value1 a = value2 a) ->
  best_of value1 actions best_action best_value
  = best_of value2 actions best_action best_value.
Proof.
  intros Hext. revert best_action best_value.
  induction actions as [|a rest IH]; intros ba bv; simpl; [done|].
  rewrite Hext. by destruct (PrimFloat.ltb bv (value2 a)).
Qed.

(** The loop of [best] returns what the scan returns on the values of
    the table, and leaves a table that answers as before. *)
Lemma best_loop_scan actions s best_action best_value q :
  (QTable.best_loop actions s best_action best_value q).1
  = best_of (fun a => value_of q (s, a)) actions best_action best_value /\
  same_values (QTable.best_loop actions s best_action best_value q).2 q.
Proof.
  revert best_action best_value q.
  induction actions as [|a rest IH]; intros ba bv q; simpl.
  - split; [done | apply same_values_refl].
  - pose proof (get_value q s a) as Hv.
    pose proof (get_same_values q s a) as Hq.
    destruct (QTable.get q s a) as [value q']. simpl in Hv, Hq.
    subst value.
    assert (Hext : forall b, value_of q' (s, b) = value_of q (s, b))
      by (intros b; apply Hq).
    destruct (PrimFloat.ltb bv (value_of q (s, a)));
      [destruct (IH (Some a) (value_of q (s, a)) q') as [IH1 IH2]
      |destruct (IH ba bv q') as [IH1 IH2]];
      (split; [rewrite IH1; by apply best_of_ext
              | by eapply same_values_trans]).
Qed.

Lemma best_scan q s :
  (QTable.best q s).1
  = best_of (fun a => value_of q (s, a)) ALL_ACTIONS None (-1e20)%float.
Proof. apply best_loop_scan. Qed.

Lemma best_same_values q s : same_values (QTable.best q s).2 q.
Proof. apply best_loop_scan. Qed.

Lemma best_respects q1 q2 s :
  same_values q1 q2 ->
  (QTable.best q1 s).1 = (QTable.best q2 s).1 /\
  same_values (QTable.best q1 s).2 (QTable.best q2 s).2.
Proof.
  intros Hq. split.
  - rewrite !best_scan. apply best_of_ext. intros a. apply Hq.
  - eapply same_values_trans; [apply best_same_values|].
    eapply same_values_trans; [exact Hq|].
    destruct (best_same_values q2 s) as [Hd Hv].
    split; [done|]. intros k. by rewrite Hv.
Qed.

Lemma perform_respects c q1 q2 :
  same_values q1 q2 ->
  (perform c q1).1 = (perform c q2).1 /\
  same_values (perform c q1).2 (perform c q2).2.
Proof.
  intros Hq. destruct c as [s a|s a v|s]; simpl.
  - destruct (get_respects q1 q2 s a Hq) as [Hv Hq'].
    destruct (QTable.get q1 s a), (QTable.get q2 s a). simpl in *.
    by subst.
  - split; [done | by apply set_respects].
  - destruct (best_respects q1 q2 s Hq) as [Hv Hq'].
    destruct (QTable.best q1 s) as [[? ?] ?],
             (QTable.best q2 s) as [[? ?] ?]. simpl in *.
    by injection Hv as -> ->.
Qed.

Lemma run_respects calls q1 q2 :
  same_values q1 q2 -> run calls q1 = run calls q2.
Proof.
  revert q1 q2. induction calls as [|c rest IH]; intros q1 q2 Hq; simpl;
    [done|].
  destruct (perform_respects c q1 q2 Hq) as [Hr Hq'].
  destruct (perform c q1), (perform c q2). simpl in *.
  subst. f_equal. by apply IH.
Qed.

Lemma best_of_cons value a rest best_action best_value :
  best_of value (a :: rest) best_action best_value
  = if PrimFloat.ltb best_value (value a)
    then best_of value rest (Some a) (value a)
    else best_of value rest best_action best_value.
Proof. reflexivity. Qed.

(** The scan keeps its candidate over actions none of which is
    greater. *)
Lemma best_of_keep value actions best_action best_value :
  (forall a, a ∈ actions -> PrimFloat.ltb best_value (value a) = false) ->
  best_of value actions best_action best_value = (best_action, best_value).
Proof.
  induction actions as [|a rest IH]; intros Hle; simpl; [done|].
  rewrite Hle by apply list_elem_of_here.
  apply IH. intros b Hb. apply Hle. by apply list_elem_of_further.
Qed.

(** Over actions all smaller than [v], the scan stops on a candidate
    smaller than [v]. *)
Lemma best_of_below value v pre rest best_action best_value :
  PrimFloat.ltb best_value v = true ->
  (forall b, b ∈ pre -> PrimFloat.ltb (value b) v = true) ->
  exists best_action' best_value',
    best_of value (pre ++ rest) best_action best_value
    = best_of value rest best_action' best_value' /\
    PrimFloat.ltb best_value' v = true.
Proof.
  revert best_action best_value.
  induction pre as [|b pre IH]; intros ba bv Hbv Hpre; simpl.
  - by exists ba, bv.
  - destruct (PrimFloat.ltb bv (value b)).
    + apply IH.
      * apply Hpre, list_elem_of_here.
      * intros b' Hb'. by apply Hpre, list_elem_of_further.
    + apply IH; [done|].
      intros b' Hb'. by apply Hpre, list_elem_of_further.
Qed.

(** The first action to reach the greatest value wins. *)
Lemma best_of_first_max value pre a post :
  PrimFloat.ltb (-1e20) (value a) = true ->
  (forall b, b ∈ pre -> PrimFloat.ltb (value b) (value a) = true) ->
  (forall b, b ∈ post -> PrimFloat.ltb (value a) (value b) = false) ->
  best_of value (pre ++ a :: post) None (-1e20)%float
  = (Some a, value a).
Proof.
  intros Ha Hpre Hpost.
  destruct (best_of_below value (value a) pre (a :: post) None
              (-1e20)%float Ha Hpre) as (ba & bv & -> & Hbv).
  simpl. rewrite Hbv. by apply best_of_keep.
Qed.

(** Once the scan holds an action it returns an action. *)
Lemma best_of_some value actions a0 best_value :
  exists a, (best_of value actions (Some a0) best_value).1 = Some a.
Proof.
  revert a0 best_value.
  induction actions as [|b rest IH]; intros a0 bv; simpl; [by eexists|].
  destruct (PrimFloat.ltb bv (value b)); apply IH.
Qed.

End TableFacts.

(** ** Claims about the table, the policies and the learner *)

Section TableClaims.
Context {State : Type} `{Countable State}.
Implicit Types (q : QTable.t State) (s : State) (a : action).

(** C8. [get] is a total function: it returns the stored value when
    the key has one (so the value last [set]) and the configured
    default otherwise (so on a new table).  The read may store the
    default under the key, and nothing a client can ask shows it: any
    sequence of later [get], [set] and [best] calls returns the same
    results as if the read had not happened. *)
Theorem get_reads_without_change q s a :
  (forall v, QTable._table q !! (s, a) = Some v ->
             (QTable.get q s a).1 = v) /\
  (QTable._table q !! (s, a) = None ->
   (QTable.get q s a).1 = QTable.init_reward q) /\
  (forall v, (QTable.get (QTable.set q s a v) s a).1 = v) /\
  (forall d, (QTable.get (QTable.init d) s a).1 = d) /\
  QTable.init_reward (QTable.get q s a).2 = QTable.init_reward q /\
  (forall calls, run calls (QTable.get q s a).2 = run calls q).
Proof.
  split_and!.
  - intros v Hv. unfold QTable.get. by rewrite Hv.
  - intros Hv. unfold QTable.get. by rewrite Hv.
  - intros v. rewrite get_value, set_value. by case_decide.
  - intros d. unfold QTable.get, QTable.init. simpl.
    by rewrite lookup_empty.
  - apply get_same_values.
  - intros calls. apply run_respects, get_same_values.
Qed.

(** C2. [observe] sets the entry of [(old_state, action)] to
    [prev + alpha * (reward + gamma * best(new_state).value - prev)],
    where [prev] is what [get] returned for that entry, keeps what
    [get] returns for every other entry and keeps the default.  With
    [alpha = 0.5], [gamma = 1] and default [0], a first observation of
    [(s0, a)] with reward [-1] and a next state whose best value is
    [== 0] leaves [-0.5] in the entry. *)
Theorem observe_update (learner : QLearner.t) q old_state a
    (reward : float) new_state :
  let prev := (QTable.get q old_state a).1 in
  let best_value := (QTable.best q new_state).1.2 in
  let q' := QLearner.observe learner q old_state a reward new_state in
  (QTable.get q' old_state a).1
  = (prev + QLearner._alpha learner
            * (reward + QLearner._gamma learner * best_value - prev))%float
  /\
  (forall s' a', (s', a') <> (old_state, a) ->
                 (QTable.get q' s' a').1 = (QTable.get q s' a').1) /\
  QTable.init_reward q' = QTable.init_reward q /\
  (QLearner._alpha learner = 0.5%float ->
   QLearner._gamma learner = 1%float ->
   QTable.init_reward q = 0%float ->
   QTable._table q !! (old_state, a) = None ->
   reward = (-1)%float ->
   PrimFloat.eqb best_value 0 = true ->
   (QTable.get q' old_state a).1 = (-0.5)%float).
Proof.
  intros prev best_value q'.
  assert (Hq' : q' = QTable.set (QTable.best (QTable.get q old_state a).2
                                   new_state).2 old_state a
                       (prev + QLearner._alpha learner
                               * (reward + QLearner._gamma learner
                                           * best_value - prev))%float).
  { unfold q', QLearner.observe, prev, best_value.
    destruct (best_respects _ _ new_state (get_same_values q old_state a))
      as [Hbest _].
    destruct (QTable.get q old_state a) as [p q1]. simpl in *.
    destruct (QTable.best q1 new_state) as [[ba bv] q2]. simpl in *.
    by rewrite <- Hbest. }
  assert (Hkeep : same_values (QTable.best (QTable.get q old_state a).2
                                 new_state).2 q).
  { eapply same_values_trans;
      [apply best_same_values | apply get_same_values]. }
  assert (Hnew : (QTable.get q' old_state a).1
                 = (prev + QLearner._alpha learner
                           * (reward + QLearner._gamma learner
                                       * best_value - prev))%float).
  { rewrite Hq', get_value, set_value. by case_decide. }
  split_and!.
  - exact Hnew.
  - intros s' a' Hne. rewrite Hq', !get_value, set_value.
    case_decide; [done | apply Hkeep].
  - rewrite Hq'. apply Hkeep.
  - intros Halpha Hgamma Hdefault Hfresh -> Hbest. rewrite Hnew.
    assert (Hprev : prev = 0%float).
    { unfold prev. rewrite get_value. unfold value_of.
      by rewrite Hfresh. }
    rewrite Halpha, Hgamma, Hprev.
    destruct (eqb_zero _ Hbest) as [-> | ->]; reflexivity.
Qed.

(** C6, amended. For a default greater than [-1e20], [best] on a state
    with no stored entry returns the first action of [ALL_ACTIONS] and
    the default.  In general, when the greatest of the four values is
    greater than [-1e20], [best] returns it with the first action, in
    the order of [ALL_ACTIONS], that has it: the action whose value is
    greater than that of every earlier action and not smaller than that
    of any later one. *)
Theorem best_first_maximum q s :
  (PrimFloat.ltb (-1e20) (QTable.init_reward q) = true ->
   (forall a, QTable._table q !! (s, a) = None) ->
   (QTable.best q s).1 = (Some ACTION_UP, QTable.init_reward q)) /\
  (forall pre a post,
      ALL_ACTIONS = pre ++ a :: post ->
      PrimFloat.ltb (-1e20) (QTable.get q s a).1 = true ->
      (forall b, b ∈ pre ->
         PrimFloat.ltb (QTable.get q s b).1 (QTable.get q s a).1 = true) ->
      (forall b, b ∈ post ->
         PrimFloat.ltb (QTable.get q s a).1 (QTable.get q s b).1 = false) ->
      (QTable.best q s).1 = (Some a, (QTable.get q s a).1)).
Proof.
  assert (Hgen : forall pre a post,
      ALL_ACTIONS = pre ++ a :: post ->
      PrimFloat.ltb (-1e20) (value_of q (s, a)) = true ->
      (forall b, b ∈ pre ->
         PrimFloat.ltb (value_of q (s, b)) (value_of q (s, a)) = true) ->
      (forall b, b ∈ post ->
         PrimFloat.ltb (value_of q (s, a)) (value_of q (s, b)) = false) ->
      (QTable.best q s).1 = (Some a, value_of q (s, a))).
  { intros pre a post Hall Ha Hpre Hpost. rewrite best_scan, Hall.
    by apply (best_of_first_max (fun b => value_of q (s, b))). }
  split.
  - intros Hdefault Hfresh.
    assert (Hv : forall a, value_of q (s, a) = QTable.init_reward q).
    { intros a. unfold value_of. by rewrite Hfresh. }
    rewrite <- (Hv ACTION_UP).
    apply (Hgen [] ACTION_UP [ACTION_DOWN; ACTION_LEFT; ACTION_RIGHT]).
    + reflexivity.
    + by rewrite Hv.
    + intros b Hb. by apply elem_of_nil in Hb.
    + intros b _. rewrite !Hv. apply ltb_irrefl.
  - intros pre a post Hall Ha Hpre Hpost. rewrite get_value in *.
    apply (Hgen pre a post Hall Ha).
    + intros b Hb. specialize (Hpre b Hb). by rewrite get_value in Hpre.
    + intros b Hb. specialize (Hpost b Hb). by rewrite get_value in Hpost.
Qed.

(** C10. When each of the four values of a state is at most [-1e20]
    (so when the default is and the state has no entry), [best]
    returns [None] with [-1e20] and [GreedyQ.pick_action] returns
    [None].  When the default and all stored values are greater than
    [-1e20], [best] returns one of the four actions. *)
Theorem best_none_below_sentinel q s :
  ((forall a, PrimFloat.leb (QTable.get q s a).1 (-1e20) = true) ->
   (QTable.best q s).1 = (None, (-1e20)%float) /\
   (GreedyQ.pick_action s q).1 = None) /\
  (PrimFloat.leb (QTable.init_reward q) (-1e20) = true ->
   (forall a, QTable._table q !! (s, a) = None) ->
   (QTable.best q s).1 = (None, (-1e20)%float) /\
   (GreedyQ.pick_action s q).1 = None) /\
  (PrimFloat.ltb (-1e20) (QTable.init_reward q) = true ->
   (forall k v, QTable._table q !! k = Some v ->
                PrimFloat.ltb (-1e20) v = true) ->
   exists a, (QTable.best q s).1.1 = Some a /\ a ∈ ALL_ACTIONS).
Proof.
  assert (Hpick : (GreedyQ.pick_action s q).1 = (QTable.best q s).1.1).
  { unfold GreedyQ.pick_action.
    by destruct (QTable.best q s) as [[? ?] ?]. }
  assert (Hnone :
    (forall a, PrimFloat.leb (QTable.get q s a).1 (-1e20) = true) ->
    (QTable.best q s).1 = (None, (-1e20)%float) /\
    (GreedyQ.pick_action s q).1 = None).
  { intros Hle.
    assert (Hbest : (QTable.best q s).1 = (None, (-1e20)%float)).
    { rewrite best_scan. apply best_of_keep. intros a _.
      apply leb_not_ltb. rewrite <- get_value. apply Hle. }
    split; [done|]. by rewrite Hpick, Hbest. }
  split_and!.
  - exact Hnone.
  - intros Hdefault Hfresh. apply Hnone. intros a.
    rewrite get_value. unfold value_of. by rewrite Hfresh.
  - intros Hdefault Hstored.
    assert (Hv : forall a, PrimFloat.ltb (-1e20) (value_of q (s, a)) = true).
    { intros a. unfold value_of.
      destruct (QTable._table q !! (s, a)) as [v|] eqn:Hk; simpl;
        [by eapply Hstored | done]. }
    rewrite best_scan.
    change ALL_ACTIONS
      with (ACTION_UP :: [ACTION_DOWN; ACTION_LEFT; ACTION_RIGHT]).
    rewrite best_of_cons, (Hv ACTION_UP).
    destruct (best_of_some (fun a => value_of q (s, a))
                [ACTION_DOWN; ACTION_LEFT; ACTION_RIGHT] ACTION_UP
                (value_of q (s, ACTION_UP))) as [a Ha].
    exists a. split; [exact Ha|].
    unfold ALL_ACTIONS.
    destruct a;
      repeat first [apply list_elem_of_here | apply list_elem_of_further].
Qed.

End TableClaims.

(** C6, as the claim states it, fails for a default that is not
    greater than [-1e20]: on a new table whose default is [-1e21],
    [best] returns [None] and the value [-1e20], neither the first
    action nor the default. *)
Lemma best_default_below_sentinel :
  (QTable.best (QTable.init (State := Z * Z) (-1e21)%float) (0, 0)).1
  = (None, (-1e20)%float).
Proof. reflexivity. Qed.

(** The first observation of the learner scenario, on a new table. *)
Lemma observe_update_witness :
  (QTable.get
     (QLearner.observe (QLearner.make 0.5 1) (QTable.init 0)
        (0, 0) ACTION_RIGHT (-1) (1, 0))
     (0, 0) ACTION_RIGHT).1 = (-0.5)%float.
Proof.
  apply (proj2 (proj2 (proj2
    (observe_update (QLearner.make 0.5 1) (QTable.init (State := Z * Z) 0)
       (0, 0) ACTION_RIGHT (-1) (1, 0))))); reflexivity.
Defined.

Lemma best_first_maximum_witness :
  (QTable.best (QTable.init (State := Z * Z) 0) (0, 0)).1
  = (Some ACTION_UP, 0%float).
Proof.
  apply (proj1 (best_first_maximum (QTable.init (State := Z * Z) 0) (0, 0)));
    [reflexivity | intros a; reflexivity].
Defined.

Lemma best_none_below_sentinel_witness :
  (QTable.best (QTable.init (State := Z * Z) (-1e20)) (0, 0)).1
  = (None, (-1e20)%float) /\
  (GreedyQ.pick_action (0, 0) (QTable.init (State := Z * Z) (-1e20))).1
  = None.
Proof.
  apply (proj1 (proj2
    (best_none_below_sentinel (QTable.init (State := Z * Z) (-1e20)) (0, 0))));
    [reflexivity | intros a; reflexivity].
Defined.

Section PolicyClaims.
Context {State Env : Type}.
Variable random_random : Env -> float * Env.

(** C7. Whatever the two policies, the state and the environment, when
    the sample that [random.random()] draws lies in [0, 1): an
    [EpsilonPolicy] built with epsilon [0] returns what policy A
    returns, and one built with epsilon [1] returns what policy B
    returns, each run after the draw. *)
Theorem epsilon_policy_extremes (policy_a policy_b : policy State Env)
    (state : State) (env : Env) :
  let sample := (random_random env).1 in
  let env' := (random_random env).2 in
  PrimFloat.leb 0 sample = true ->
  PrimFloat.ltb sample 1 = true ->
  EpsilonPolicy.pick_action random_random
    (EpsilonPolicy.make policy_a policy_b 0) state env
  = policy_a state env' /\
  EpsilonPolicy.pick_action random_random
    (EpsilonPolicy.make policy_a policy_b 1) state env
  = policy_b state env'.
Proof.
  intros sample env' Hlow Hhigh. unfold EpsilonPolicy.pick_action.
  subst sample env'. destruct (random_random env) as [sample env'].
  simpl in *. by rewrite (leb_not_ltb _ _ Hlow), Hhigh.
Qed.

End PolicyClaims.

Lemma epsilon_policy_extremes_witness :
  EpsilonPolicy.pick_action (State := Z * Z) replay
    (EpsilonPolicy.make (fun _ env => (Some ACTION_UP, env))
                        (fun _ env => (Some ACTION_DOWN, env)) 0)
    (0, 0) [0.25%float]
  = (Some ACTION_UP, []) /\
  EpsilonPolicy.pick_action (State := Z * Z) replay
    (EpsilonPolicy.make (fun _ env => (Some ACTION_UP, env))
                        (fun _ env => (Some ACTION_DOWN, env)) 1)
    (0, 0) [0.25%float]
  = (Some ACTION_DOWN, []).
Proof.
  apply (epsilon_policy_extremes replay
           (fun _ env => (Some ACTION_UP, env))
           (fun _ env => (Some ACTION_DOWN, env))
           (0, 0) [0.25%float]); reflexivity.
Defined.

(** * Further properties of the code *)

(** ** [split] *)

Lemma elem_of_rev {A} (x : A) (l : list A) : x ∈ rev l <-> x ∈ l.
Proof. rewrite !list_elem_of_In. symmetry. apply in_rev. Qed.

Lemma split_from_nil cur s :
  split_from cur s = [] <-> cur = [] /\ forallb isspace s = true.
Proof.
  revert cur. induction s as [|c s IH]; intros cur; simpl.
  - destruct cur; split; try done. by intros [[=] _].
  - destruct (isspace c) eqn:Hc; simpl.
    + destruct cur as [|c0 cur]; [apply IH|].
      split; [done | by intros [[=] _]].
    + rewrite IH. split; [by intros [[=] _] | by intros [_ [=]]].
Qed.

(** Every piece that [split] returns is a non-empty run without
    whitespace. *)
Lemma split_from_pieces cur s piece :
  (forall c, c ∈ cur -> isspace c = false) ->
  piece ∈ split_from cur s ->
  piece <> [] /\ forall c, c ∈ piece -> isspace c = false.
Proof.
  revert cur. induction s as [|c s IH]; intros cur Hcur; simpl.
  - destruct cur as [|c0 cur]; [by intros ?%elem_of_nil|].
    intros ->%list_elem_of_singleton. split.
    + intros Hrev. apply (f_equal length) in Hrev.
      rewrite length_rev in Hrev. done.
    + intros c Hc. exact (Hcur c (proj1 (elem_of_rev _ _) Hc)).
  - destruct (isspace c) eqn:Hc.
    + destruct cur as [|c0 cur].
      * apply IH. by intros ? ?%elem_of_nil.
      * intros [->|Hin]%elem_of_cons.
        -- split.
           ++ intros Hrev. apply (f_equal length) in Hrev.
              rewrite length_rev in Hrev. done.
           ++ intros c1 Hc1. exact (Hcur c1 (proj1 (elem_of_rev _ _) Hc1)).
        -- revert Hin. apply IH. by intros ? ?%elem_of_nil.
    + apply IH. intros c1 [->|Hc1]%elem_of_cons; [done | by apply Hcur].
Qed.

(** [split] loses nothing but whitespace. *)
Lemma split_from_concat cur s :
  concat (split_from cur s)
  = rev cur ++ filter (fun c => isspace c = false) s.
Proof.
  revert cur. induction s as [|c s IH]; intros cur; simpl.
  - destruct cur; simpl; [done|]. by rewrite !app_nil_r.
  - rewrite filter_cons. destruct (isspace c) eqn:Hc.
    + destruct (decide (true = false)) as [?|_]; [done|].
      destruct cur as [|c0 cur]; [apply IH|].
      cbn [concat]. by rewrite IH.
    + destruct (decide (false = false)) as [_|?]; [|done].
      rewrite IH. simpl. by rewrite <- app_assoc.
Qed.

Lemma count_start_app s1 s2 :
  count_start (s1 ++ s2) = (count_start s1 + count_start s2)%nat.
Proof. unfold count_start. by rewrite filter_app, length_app. Qed.

Lemma count_start_cons c s :
  count_start (c :: s)
  = ((if Ascii.eqb c (chr "@") then 1 else 0) + count_start s)%nat.
Proof.
  unfold count_start. rewrite filter_cons.
  destruct (Ascii.eqb_spec c (chr "@")) as [->|Hne].
  - by destruct (decide (chr "@" = chr "@")).
  - by destruct (decide (c = chr "@")).
Qed.

Lemma count_start_split s : count_start (concat (split s)) = count_start s.
Proof.
  unfold split. rewrite split_from_concat. simpl.
  induction s as [|c s IH]; [done|].
  rewrite filter_cons, count_start_cons.
  destruct (isspace c) eqn:Hc.
  - destruct (decide (true = false)) as [?|_]; [done|].
    destruct (Ascii.eqb_spec c (chr "@")) as [->|_]; [done | exact IH].
  - destruct (decide (false = false)) as [_|?]; [|done].
    by rewrite count_start_cons, IH.
Qed.

Lemma count_start_zero line :
  count_start line = 0%nat <-> chr "@" ∉ line.
Proof.
  induction line as [|c line IH]; [by split; [intros _ ?%elem_of_nil|]|].
  rewrite count_start_cons, not_elem_of_cons.
  destruct (Ascii.eqb_spec c (chr "@")) as [->|Hne].
  - split; [done | by intros [? _]].
  - rewrite <- IH. simpl. split; [by intros ->; split | by intros [_ ->]].
Qed.

Lemma count_start_insert line x :
  line !! x = Some (chr "@") ->
  count_start (<[x := chr "."]> line) = pred (count_start line).
Proof.
  revert x. induction line as [|c line IH]; intros [|x]; simpl; try done.
  - intros [= ->]. by rewrite !count_start_cons.
  - intros Hx. rewrite !count_start_cons, (IH _ Hx).
    assert (count_start line <> 0%nat).
    { rewrite count_start_zero. intros Hno. apply Hno.
      by eapply list_elem_of_lookup_2. }
    destruct (Ascii.eqb c (chr "@")); lia.
Qed.

(** ** The loops of [parse] *)

Lemma scan_line_inv y x0 line init r :
  World.scan_line y x0 line init = Ok r ->
  (forall c, c ∈ line -> char_in c VALID_CHARS = true) /\
  match init with
  | Some p => r = Some p /\ count_start line = 0%nat
  | None =>
      (r = None /\ count_start line = 0%nat) \/
      (exists x, r = Some ((x0 + x)%nat, y) /\ line !! x = Some (chr "@")
                 /\ count_start line = 1%nat)
  end.
Proof.
  revert x0 init. induction line as [|ch rest IH]; intros x0 init; simpl.
  - intros [= <-]. split; [by intros ? ?%elem_of_nil|].
    destruct init; [done | by left].
  - destruct (char_in ch VALID_CHARS) eqn:Hvalid; simpl; [|done].
    rewrite count_start_cons.
    destruct (Ascii.eqb_spec ch (chr "@")) as [->|Hne].
    + destruct init as [p|]; [done|]. intros Hr.
      destruct (IH _ _ Hr) as [Hall [-> Hcount]]. split.
      * by intros c [->|Hc]%elem_of_cons; [|apply Hall].
      * right. exists 0%nat. rewrite Nat.add_0_r, Hcount. done.
    + intros Hr. destruct (IH _ _ Hr) as [Hall Hinit]. split.
      * by intros c [->|Hc]%elem_of_cons; [|apply Hall].
      * destruct init as [p|]; [done|].
        destruct Hinit as [?|(x & -> & Hx & Hcount)]; [by left|].
        right. exists (S x). split; [f_equal; f_equal; lia | done].
Qed.

Lemma scan_lines_inv len0 y0 lines init r :
  World.scan_lines len0 y0 lines init = Ok r ->
  (forall line c, line ∈ lines -> c ∈ line -> char_in c VALID_CHARS = true) /\
  match init with
  | Some p => r = Some p /\ count_start (concat lines) = 0%nat
  | None =>
      (r = None /\ count_start (concat lines) = 0%nat) \/
      (exists x i l, r = Some (x, (y0 + i)%nat) /\ lines !! i = Some l
                     /\ l !! x = Some (chr "@")
                     /\ count_start (concat lines) = 1%nat)
  end.
Proof.
  revert y0 init. induction lines as [|line rest IH]; intros y0 init; simpl.
  - intros [= <-]. split; [by intros ? ? ?%elem_of_nil|].
    destruct init; [done | by left].
  - destruct (_ && _); [done|].
    destruct (World.scan_line y0 0 line init) as [init'|] eqn:Hline; [|done].
    cbn [mbind result_bind]. intros Hr.
    destruct (scan_line_inv _ _ _ _ _ Hline) as [Hvalid Hfirst].
    destruct (IH _ _ Hr) as [Hall Hrest].
    rewrite count_start_app. split.
    + intros l c [->|Hl]%elem_of_cons; [apply Hvalid | by apply Hall].
    + destruct init as [p|].
      * destruct Hfirst as [-> ->]. destruct Hrest as [-> ->]. done.
      * destruct Hfirst as [[-> ->]|(x & -> & Hx & ->)].
        -- destruct Hrest as [?|(x & i & l & -> & Hl & Hx & ->)]; [by left|].
           right. exists x, (S i), l.
           replace (y0 + S i)%nat with (S y0 + i)%nat by lia. done.
        -- destruct Hrest as [-> ->]. right. exists x, 0%nat, line.
           by rewrite Nat.add_0_r.
Qed.

Lemma scan_line_complete y x0 line init :
  (forall c, c ∈ line -> char_in c VALID_CHARS = true) ->
  let total := (found init + count_start line)%nat in
  ((2 <= total)%nat -> World.scan_line y x0 line init = Raise TypeError) /\
  ((total <= 1)%nat ->
   exists r, World.scan_line y x0 line init = Ok r /\ found r = total).
Proof.
  revert x0 init. induction line as [|ch rest IH]; intros x0 init Hvalid;
    simpl.
  - unfold count_start. simpl. rewrite Nat.add_0_r. split.
    + destruct init; simpl; lia.
    + intros _. by exists init.
  - rewrite (Hvalid ch) by apply list_elem_of_here. simpl.
    rewrite count_start_cons.
    assert (Hrest : forall c, c ∈ rest -> char_in c VALID_CHARS = true)
      by (intros c Hc; by apply Hvalid, list_elem_of_further).
    destruct (Ascii.eqb_spec ch (chr "@")) as [->|Hne].
    + destruct init as [p|]; simpl.
      * split; [done | lia].
      * apply (IH (S x0) (Some (x0, y)) Hrest).
    + apply (IH (S x0) init Hrest).
Qed.

Lemma scan_lines_complete len0 y0 lines init :
  (forall line, line ∈ lines -> length line = len0) ->
  (forall line c, line ∈ lines -> c ∈ line -> char_in c VALID_CHARS = true) ->
  let total := (found init + count_start (concat lines))%nat in
  ((2 <= total)%nat ->
   World.scan_lines len0 y0 lines init = Raise TypeError) /\
  ((total <= 1)%nat ->
   exists r, World.scan_lines len0 y0 lines init = Ok r /\ found r = total).
Proof.
  revert y0 init. induction lines as [|line rest IH];
    intros y0 init Hlen Hvalid; simpl.
  - unfold count_start. simpl. rewrite Nat.add_0_r. split.
    + destruct init; simpl; lia.
    + intros _. by exists init.
  - rewrite (Hlen line) by apply list_elem_of_here.
    rewrite Nat.eqb_refl, andb_false_r, count_start_app.
    assert (Hlen' : forall l, l ∈ rest -> length l = len0)
      by (intros l Hl; by apply Hlen, list_elem_of_further).
    assert (Hvalid' : forall l c, l ∈ rest -> c ∈ l ->
                                  char_in c VALID_CHARS = true)
      by (intros l c Hl; by apply Hvalid, list_elem_of_further).
    destruct (scan_line_complete y0 0 line init) as [Hmany Hfew].
    { intros c. apply Hvalid, list_elem_of_here. }
    destruct (le_lt_dec 2 (found init + count_start line)) as [Hc|Hc].
    + rewrite (Hmany Hc). cbn [mbind result_bind]. split; [done | lia].
    + destruct Hfew as (init' & -> & Hfound); [lia|].
      cbn [mbind result_bind].
      destruct (IH (S y0) init' Hlen' Hvalid') as [Hmany' Hfew'].
      rewrite Hfound in Hmany', Hfew'. rewrite Nat.add_assoc.
      split; [exact Hmany' | exact Hfew'].
Qed.

Lemma elem_of_concat {A} (x : A) (ls : list (list A)) :
  x ∈ concat ls <-> exists l, l ∈ ls /\ x ∈ l.
Proof.
  rewrite list_elem_of_In, in_concat.
  split; intros (l & Hl & Hx); exists l; by rewrite !list_elem_of_In in *.
Qed.

Lemma count_start_concat_insert lines y line line' :
  lines !! y = Some line ->
  (count_start (concat (<[y := line']> lines)) + count_start line
   = count_start (concat lines) + count_start line')%nat.
Proof.
  revert y. induction lines as [|l lines IH]; intros [|y]; simpl; try done.
  - intros [= ->]. rewrite !count_start_app. lia.
  - intros Hy. rewrite !count_start_app. specialize (IH _ Hy). lia.
Qed.

Lemma scan_line_no_content y x0 line init :
  World.scan_line y x0 line init <> Raise (WorldFailure no_content).
Proof.
  revert x0 init. induction line as [|ch rest IH]; intros x0 init; simpl;
    [done|].
  destruct (negb _); [done|]. destruct (Ascii.eqb _ _); [|apply IH].
  destruct init; [done | apply IH].
Qed.

Lemma scan_lines_no_content len0 y0 lines init :
  World.scan_lines len0 y0 lines init <> Raise (WorldFailure no_content).
Proof.
  revert y0 init. induction lines as [|line rest IH]; intros y0 init; simpl;
    [done|].
  destruct (_ && _); [done|].
  pose proof (scan_line_no_content y0 0 line init) as Hline.
  destruct (World.scan_line y0 0 line init) as [init'|e];
    cbn [mbind result_bind]; [apply IH | congruence].
Qed.

(** What a successful [parse] has read and built. *)
Lemma parse_inversion s w :
  World.parse s = Ok w ->
  exists x y line,
    w = World.make (Z.of_nat x, Z.of_nat y)
          (<[y := <[x := chr "."]> line]> (split s)) /\
    split s !! y = Some line /\ line !! x = Some (chr "@") /\
    count_start (concat (split s)) = 1%nat /\
    valid_lines (split s).
Proof.
  unfold World.parse.
  destruct (split s) as [|line0 rest] eqn:Hsplit; [done|].
  set (lines := line0 :: rest).
  destruct (World.scan_lines (length line0) 0 lines None) as [init|] eqn:Hscan;
    [|done].
  cbn [mbind result_bind].
  destruct (scan_lines_ok _ _ _ _ _ Hscan) as [Hlen _].
  destruct (scan_lines_inv _ _ _ _ _ Hscan) as [Hvalid Hinit].
  destruct Hinit as [[-> _]|(x & y & l & -> & Hl & Hx & Hcount)]; [done|].
  simpl (0 + y)%nat. rewrite py_index_in_range by lia.
  rewrite Nat2Z.id, Hl. cbn [mbind result_bind]. intros [= <-].
  exists x, y, l. split_and!; try done.
  - f_equal. f_equal. rewrite Nat.add_1_r. symmetry.
    apply insert_take_drop. by eapply lookup_lt_Some.
  - split; [|exact Hvalid].
    intros line [i Hi]%list_elem_of_lookup. simpl.
    destruct i as [|i]; [by injection Hi as -> | apply (Hlen _ _ Hi); lia].
Qed.

(** ** Properties of [parse] *)

(** X1. When [parse] returns a world, the text holds exactly one [@];
    the start position is the column and the line of that [@] among the
    lines [s.split()] gives, these lines have one length and hold only
    [VALID_CHARS], and the map is these lines with the [@] rewritten to
    [.]. *)
Theorem parse_result (s : str) (w : World.t) :
  World.parse s = Ok w ->
  count_start s = 1%nat /\
  valid_lines (split s) /\
  exists x y line,
    World.init_state w = (Z.of_nat x, Z.of_nat y) /\
    split s !! y = Some line /\ line !! x = Some (chr "@") /\
    World._lines w = <[y := <[x := chr "."]> line]> (split s).
Proof.
  intros (x & y & line & -> & Hy & Hx & Hcount & Hvalid)%parse_inversion.
  rewrite <- count_start_split. split_and!; try done.
  by exists x, y, line.
Qed.

Lemma parse_result_witness :
  count_start (list_ascii_of_string "@^") = 1%nat.
Proof. exact (proj1 (parse_result _ _ parse_trap_world)). Defined.

(** X2. A map that [parse] returns holds only [#], [.], [$] and [^]:
    the [@] is gone and a blank never gets in. *)
Theorem parse_map_chars (s : str) (w : World.t) (pos : Z * Z) (c : ascii) :
  World.parse s = Ok w -> cell w pos = Some c -> map_char c.
Proof.
  intros (x & y & line & -> & Hy & Hx & Hcount & [_ Hvalid])%parse_inversion.
  intros Hcell.
  set (lines' := <[y := <[x := chr "."]> line]> (split s)) in *.
  assert (Hin : exists l, l ∈ lines' /\ c ∈ l).
  { destruct pos as [px py]. unfold cell in Hcell. simpl in Hcell.
    destruct (_ && _); [|done].
    destruct (lines' !! Z.to_nat py) as [l|] eqn:Hl; simpl in Hcell; [|done].
    exists l. split; by eapply list_elem_of_lookup_2. }
  destruct Hin as (l & Hl & Hc).
  assert (Hno : chr "@" ∉ concat lines').
  { apply count_start_zero.
    pose proof (count_start_concat_insert (split s) y line
                  (<[x := chr "."]> line) Hy) as Hsum.
    rewrite (count_start_insert _ _ Hx) in Hsum. fold lines' in Hsum.
    assert (count_start line <> 0%nat).
    { rewrite count_start_zero. intros Hnone. apply Hnone.
      by eapply list_elem_of_lookup_2. }
    lia. }
  assert (Hc' : c = chr "." \/ exists l0, l0 ∈ split s /\ c ∈ l0).
  { apply list_elem_of_lookup in Hl as [i Hi]. unfold lines' in Hi.
    destruct (decide (i = y)) as [->|Hne].
    - rewrite list_lookup_insert_eq in Hi by (by eapply lookup_lt_Some).
      injection Hi as <-.
      apply list_elem_of_lookup in Hc as [j Hj].
      destruct (decide (j = x)) as [->|Hnej].
      + rewrite list_lookup_insert_eq in Hj by (by eapply lookup_lt_Some).
        left. by injection Hj.
      + rewrite list_lookup_insert_ne in Hj by done.
        right. exists line. split; by eapply list_elem_of_lookup_2.
    - rewrite list_lookup_insert_ne in Hi by done.
      right. exists l. split; [by eapply list_elem_of_lookup_2 | done]. }
  assert (Hnot_start : c <> chr "@").
  { intros ->. apply Hno. apply elem_of_concat. eauto. }
  destruct Hc' as [->|(l0 & Hl0 & Hc0)]; [right; by left|].
  assert (Hspace : isspace c = false).
  { eapply (split_from_pieces [] s l0); [by intros ? ?%elem_of_nil| |done].
    exact Hl0. }
  specialize (Hvalid l0 c Hl0 Hc0).
  unfold char_in, VALID_CHARS in Hvalid. simpl in Hvalid.
  rewrite !orb_true_iff, !Ascii.eqb_eq in Hvalid. unfold map_char.
  destruct Hvalid as [?|[?|[?|[?|[?|[?|?]]]]]]; try tauto; try discriminate.
  subst c. vm_compute in Hspace. discriminate.
Qed.

Lemma parse_map_chars_witness : map_char (chr "^").
Proof.
  exact (parse_map_chars _ trap_world (1, 0) _ parse_trap_world eq_refl).
Defined.

(** X3. The size of a world that [parse] returns is the length of the
    first line that [s.split()] gives by the number of these lines, and
    neither is zero. *)
Theorem parse_size_of_split (s : str) (w : World.t) :
  World.parse s = Ok w ->
  World.size w
  = Ok (Z.of_nat (length (hd [] (split s))), Z.of_nat (length (split s))) /\
  1 <= Z.of_nat (length (hd [] (split s))) /\
  1 <= Z.of_nat (length (split s)).
Proof.
  intros (x & y & line & -> & Hy & Hx & Hcount & [Hlen _])%parse_inversion.
  assert (Hline0 : hd [] (split s) ∈ split s /\ hd [] (split s) <> []).
  { destruct (split s) as [|line0 rest] eqn:Hsplit; [done|]. simpl.
    assert (Hin : line0 ∈ split s)
      by (rewrite Hsplit; apply list_elem_of_here).
    split; [apply list_elem_of_here|].
    eapply (split_from_pieces [] s line0); [by intros ? ?%elem_of_nil|].
    exact Hin. }
  destruct Hline0 as [_ Hne].
  unfold World.size, World.w, World.h. simpl. rewrite length_insert.
  destruct (split s) as [|line0 rest] eqn:Hsplit; [done|].
  simpl in *. split_and!.
  - destruct y as [|y]; simpl; [|done].
    injection Hy as ->. by rewrite length_insert.
  - destruct line0; [done | simpl; lia].
  - lia.
Qed.

Lemma parse_size_of_split_witness :
  World.size trap_world = Ok (2, 1).
Proof. exact (proj1 (parse_size_of_split _ _ parse_trap_world)). Defined.

(** X4. On a text whose pieces under [s.split()] exist, have one
    length and hold only [VALID_CHARS], the number of [@] decides what
    [parse] does: with none it raises [WorldFailure] (no initial state),
    with one it returns a world, with more it raises [TypeError]. *)
Theorem parse_by_count (s : str) :
  split s <> [] -> valid_lines (split s) ->
  match count_start s with
  | 0%nat => World.parse s = Raise (WorldFailure no_initial_state)
  | 1%nat => exists w, World.parse s = Ok w
  | _ => World.parse s = Raise TypeError
  end.
Proof.
  intros Hne [Hlen Hvalid]. rewrite <- count_start_split. unfold World.parse.
  destruct (split s) as [|line0 rest] eqn:Hsplit; [done|].
  set (lines := line0 :: rest) in *. simpl in Hlen.
  destruct (scan_lines_complete (length line0) 0 lines None Hlen Hvalid)
    as [Hmany Hfew]. cbn [found Nat.add] in Hmany, Hfew.
  destruct (count_start (concat lines)) as [|[|n]] eqn:Hcount.
  - destruct Hfew as (r & -> & Hr); [lia|]. by destruct r.
  - destruct Hfew as (r & Hscan & Hr); [lia|]. rewrite Hscan.
    destruct r as [[x y]|]; [|done]. cbn [mbind result_bind].
    destruct (scan_lines_ok _ _ _ _ _ Hscan) as [_ Hinit].
    destruct Hinit as [[=]|(x' & i & l & [= -> ->] & Hl & Hx)].
    rewrite py_index_in_range by lia.
    rewrite Nat2Z.id, Hl. cbn [mbind result_bind]. eauto.
  - rewrite Hmany by lia. done.
Qed.

Lemma parse_by_count_witness :
  World.parse (list_ascii_of_string "@@") = Raise TypeError.
Proof.
  apply (parse_by_count (list_ascii_of_string "@@")); [done|].
  split.
  - by intros line ->%list_elem_of_singleton.
  - intros line c ->%list_elem_of_singleton Hc.
    apply elem_of_cons in Hc as [->|Hc]; [reflexivity|].
    by apply list_elem_of_singleton in Hc as ->.
Defined.

(** X5. [parse] raises [WorldFailure] for want of content exactly on the
    texts made of whitespace only, the empty text among them. *)
Theorem parse_no_content (s : str) :
  World.parse s = Raise (WorldFailure no_content)
  <-> forallb isspace s = true.
Proof.
  unfold World.parse. split.
  - destruct (split s) as [|line0 rest] eqn:Hsplit.
    + intros _. by apply (split_from_nil [] s).
    + pose proof (scan_lines_no_content (length line0) 0 (line0 :: rest) None)
        as Hscan.
      destruct (World.scan_lines _ _ _ _) as [init|e];
        cbn [mbind result_bind]; [|congruence].
      destruct init as [[x y]|]; [|done].
      unfold py_index. destruct (_ <? 0); [|destruct (_ <? 0)]; try done;
        by destruct (_ !! _).
  - intros Hspace.
    assert (Hnil : split s = []) by (by apply (split_from_nil [] s)).
    by rewrite Hnil.
Qed.

(** ** Properties of [World.at] and the simulation *)

#[local] Arguments cell : simpl never.

(** X6. On a rectangular world [at] reads a negative coordinate from the
    far edge, as Python indexing does: it returns the cell at the wrapped
    position and raises [IndexError] exactly when a coordinate lies
    outside [-width, width) or [-height, height). *)
Theorem at_wraps (w : World.t) (x y : Z) :
  rectangular w ->
  World.at_ w (x, y)
  = match cell w (wrap x (width w), wrap y (World.h w)) with
    | Some c => Ok c
    | None => Raise IndexError
    end /\
  (World.at_ w (x, y) = Raise IndexError <->
   ~ (- width w <= x < width w /\ - World.h w <= y < World.h w)).
Proof.
  intros Hrect.
  assert (Hat : World.at_ w (x, y)
                = match cell w (wrap x (width w), wrap y (World.h w)) with
                  | Some c => Ok c
                  | None => Raise IndexError
                  end).
  { unfold World.at_, py_index, cell, wrap, World.h.
    destruct Hrect as [_ Hlen].
    set (wy := if y <? 0 then y + Z.of_nat (length (World._lines w)) else y).
    destruct (Z.ltb_spec wy 0) as [Hy|Hy].
    { destruct (Z.leb_spec 0 wy); [lia|]. by rewrite andb_false_r. }
    destruct (Z.leb_spec 0 wy); [|lia]. rewrite andb_true_r.
    destruct (World._lines w !! Z.to_nat wy) as [line|] eqn:Hline;
      cbn [mbind result_bind option_bind]; [|by destruct (_ <=? _)].
    rewrite (Hlen line) by (by eapply list_elem_of_lookup_2).
    set (wx := if x <? 0 then x + width w else x).
    destruct (Z.ltb_spec wx 0) as [Hx|Hx].
    { by destruct (Z.leb_spec 0 wx); [lia|]. }
    destruct (Z.leb_spec 0 wx); [|lia]. simpl.
    by destruct (line !! Z.to_nat wx). }
  split; [exact Hat|]. rewrite Hat.
  set (pos := (wrap x (width w), wrap y (World.h w))).
  assert (Hwrap : in_bounds w pos
                  <-> - width w <= x < width w
                      /\ - World.h w <= y < World.h w).
  { unfold in_bounds, pos, wrap. cbn [fst snd].
    destruct (Z.ltb_spec x 0), (Z.ltb_spec y 0); lia. }
  rewrite <- Hwrap, <- (cell_in_bounds w Hrect pos).
  destruct (cell w pos) as [c|].
  - split; [done|]. intros Hnone. destruct Hnone. eauto.
  - split; [by intros _ [? [=]] | done].
Qed.

Lemma at_wraps_witness :
  World.at_ trap_world (-1, -1) = Ok (chr "^").
Proof.
  exact (proj1 (at_wraps trap_world (-1) (-1) (one_line_rectangular _ _))).
Defined.

Lemma act_returns_reward w sim a :
  rectangular w -> Simulation._world sim = w ->
  exists reward sim',
    Simulation.act sim a = Ok (reward, sim') /\
    (reward = -1 \/ reward = -1000) /\
    Simulation.score sim' = Simulation.score sim + reward /\
    Simulation._world sim' = w.
Proof.
  intros Hrect Hw. rewrite (act_cell w Hrect sim a Hw). cbv zeta.
  destruct (cell w _) as [c|]; [destruct (passable c)|];
    eexists _, _; (split; [reflexivity|]); simpl; split_and!; try done;
    try (by left).
  destruct (Ascii.eqb c (chr "^")); [by right | by left].
Qed.

(** X7. On a rectangular world a run of [act] calls never raises; each
    reward is [-1] or [-1000], the score falls by their sum, so by at
    least one and at most a thousand per call. *)
Theorem acts_score (w : World.t) (actions : list action)
    (sim : Simulation.t) :
  rectangular w -> Simulation._world sim = w ->
  exists rewards sim',
    acts actions sim = Ok (rewards, sim') /\
    length rewards = length actions /\
    (forall r, r ∈ rewards -> r = -1 \/ r = -1000) /\
    Simulation.score sim' = Simulation.score sim + sum_rewards rewards /\
    -1000 * Z.of_nat (length actions)
    <= Simulation.score sim' - Simulation.score sim
    <= - Z.of_nat (length actions).
Proof.
  intros Hrect. revert sim.
  induction actions as [|a rest IH]; intros sim Hw.
  - exists [], sim. simpl. split_and!; try done; try lia.
    by intros r ?%elem_of_nil.
  - destruct (act_returns_reward w sim a Hrect Hw)
      as (r & sim1 & Hact & Hr & Hscore & Hw1).
    destruct (IH sim1 Hw1) as (rs & sim' & Hacts & Hlen & Hrs & Hsum & Hbound).
    exists (r :: rs), sim'. cbn [acts]. rewrite Hact.
    cbn [mbind result_bind fst snd]. rewrite Hacts.
    cbn [mbind result_bind fst snd].
    split_and!; try done.
    + simpl. by rewrite Hlen.
    + by intros r' [->|Hin]%elem_of_cons; [|apply Hrs].
    + simpl. lia.
    + rewrite length_cons. lia.
    + rewrite length_cons. lia.
Qed.

Lemma acts_score_witness :
  exists rewards sim',
    acts [ACTION_RIGHT; ACTION_LEFT] (Simulation.init floor_world)
    = Ok (rewards, sim') /\
    Simulation.score sim' = 0 + sum_rewards rewards.
Proof.
  destruct (acts_score floor_world [ACTION_RIGHT; ACTION_LEFT]
              (Simulation.init floor_world) (one_line_rectangular _ _)
              eq_refl)
    as (rewards & sim' & Hacts & _ & _ & Hsum & _).
  exists rewards, sim'. split; [exact Hacts | exact Hsum].
Defined.

(** X8. From a simulation that is not terminal, [act] returns the
    reward [-1000] exactly when it leaves the agent on a Trap. *)
Theorem act_trap_reward (w : World.t) (sim : Simulation.t) (a : action)
    (reward : Z) (sim' : Simulation.t) :
  rectangular w -> Simulation._world sim = w ->
  Simulation.in_terminal_state sim = Ok false ->
  Simulation.act sim a = Ok (reward, sim') ->
  (reward = -1000 <-> cell w (Simulation.state sim') = Some (chr "^")).
Proof.
  intros Hrect Hw Hrun.
  assert (Hhere : cell w (Simulation.state sim) <> Some (chr "^")).
  { intros Hc.
    rewrite (in_terminal_state_cell w sim _ Hrect Hw Hc) in Hrun.
    discriminate. }
  rewrite (act_cell w Hrect sim a Hw). cbv zeta.
  unfold Simulation.x, Simulation.y.
  destruct (cell w (_ + _, _)) as [c|] eqn:Hc;
    [destruct (passable c)|]; intros [= <- <-]; simpl; try done.
  rewrite Hc. destruct (Ascii.eqb_spec c (chr "^")) as [->|Hne]; [done|].
  split; [done | congruence].
Qed.

Lemma act_trap_reward_witness :
  -1000 = -1000 <-> cell trap_world (1, 0) = Some (chr "^").
Proof.
  exact (act_trap_reward trap_world (Simulation.init trap_world) ACTION_RIGHT
           (-1000) (Simulation.make trap_world (1, 0) (-1000))
           (one_line_rectangular _ _) eq_refl eq_refl eq_refl).
Defined.

(** X9. A move that changed the position is undone by the opposite
    action: when the agent stood on a Floor, Trap or Goal cell, [act] with
    the opposite action takes it back there. *)
Theorem act_undo (w : World.t) (sim : Simulation.t) (a : action)
    (reward : Z) (sim' : Simulation.t) :
  rectangular w -> Simulation._world sim = w -> on_passable sim ->
  Simulation.act sim a = Ok (reward, sim') ->
  Simulation.state sim' <> Simulation.state sim ->
  exists reward' sim'',
    Simulation.act sim' (opposite a) = Ok (reward', sim'') /\
    Simulation.state sim'' = Simulation.state sim.
Proof.
  intros Hrect Hw (c0 & Hc0 & Hp0). rewrite Hw in Hc0.
  rewrite (act_cell w Hrect sim a Hw). cbv zeta.
  unfold Simulation.x, Simulation.y.
  destruct (cell w (_ + _, _)) as [c|] eqn:Hc;
    [destruct (passable c)|]; intros [= <- <-]; simpl; try done.
  intros _.
  rewrite (act_cell w Hrect (Simulation.make w _ _) (opposite a) eq_refl).
  cbv zeta.
  unfold Simulation.x, Simulation.y. simpl.
  assert (Hback : (Simulation.state sim).1 + (MOVEMENT a).1
                    + (MOVEMENT (opposite a)).1 = (Simulation.state sim).1
                  /\ (Simulation.state sim).2 + (MOVEMENT a).2
                    + (MOVEMENT (opposite a)).2 = (Simulation.state sim).2).
  { destruct a; simpl; lia. }
  destruct Hback as [-> ->].
  destruct (Simulation.state sim) as [x y]. simpl. rewrite Hc0, Hp0.
  by eexists _, _.
Qed.

Lemma act_undo_witness :
  exists reward' sim'',
    Simulation.act (Simulation.make floor_world (1, 0) (-1)) ACTION_LEFT
    = Ok (reward', sim'') /\
    Simulation.state sim'' = (0, 0).
Proof.
  apply (act_undo floor_world (Simulation.init floor_world) ACTION_RIGHT (-1)
           (Simulation.make floor_world (1, 0) (-1))
           (one_line_rectangular _ _) eq_refl).
  - exists (chr "."). by split.
  - reflexivity.
  - discriminate.
Defined.

(** X21. Whatever a driver has done, [reset] gives back the simulation
    that [Simulation(world)] built: the start position and a score of
    zero. *)
Theorem reset_restores (w : World.t) (sim : Simulation.t) :
  reachable w sim -> Simulation.reset sim = Simulation.init w.
Proof.
  intros Hreach. unfold Simulation.reset, Simulation.init.
  by rewrite (reachable_world _ _ Hreach).
Qed.

Lemma reset_restores_witness :
  Simulation.reset (Simulation.make trap_world (1, 0) (-1000))
  = Simulation.init trap_world.
Proof.
  apply reset_restores.
  by apply (reach_act trap_world (Simulation.init trap_world) ACTION_RIGHT
              (-1000)); [apply reach_init|].
Defined.

(** ** Properties of the drivers *)

Lemma reachable_terminal w sim :
  well_formed w -> reachable w sim ->
  exists b, Simulation.in_terminal_state sim = Ok b.
Proof.
  intros Hwf Hreach.
  destruct (reachable_on_passable _ _ Hwf Hreach) as (c & Hc & _).
  pose proof (reachable_world _ _ Hreach) as Hw. rewrite Hw in Hc.
  eexists. by apply (in_terminal_state_cell w); [apply Hwf| |].
Qed.

Lemma reachable_act w sim a :
  well_formed w -> reachable w sim ->
  exists reward sim',
    Simulation.act sim a = Ok (reward, sim') /\ reachable w sim'.
Proof.
  intros Hwf Hreach.
  destruct (act_returns_reward w sim a (proj1 Hwf)
              (reachable_world _ _ Hreach)) as (r & sim' & Hact & _).
  exists r, sim'. split; [done | by eapply reach_act].
Qed.

Lemma key_action_not_space ch a :
  KEY_ACTION_MAP ch = Some a -> (ch =? KEY_SPACE) = false.
Proof.
  intros Hkey. destruct (Z.eqb_spec ch KEY_SPACE) as [->|]; [|done].
  discriminate Hkey.
Qed.

(** X10. In a well-formed world [HumanPlayer.interact] never raises and
    takes a reachable simulation to a reachable one.  In a terminal
    state only the space key has an effect, a reset, and the movement
    keys are ignored; in a running state a movement key is one call of
    [act] and every other key, the space key included, is ignored. *)
Theorem human_interact (w : World.t) (player : HumanPlayer.t) (ch : Z)
    (sim : Simulation.t) :
  well_formed w -> reachable w sim ->
  exists sim',
    HumanPlayer.interact player ch sim = Ok (HumanPlayer.make ch, sim') /\
    reachable w sim' /\
    (Simulation.in_terminal_state sim = Ok true ->
     sim' = if ch =? KEY_SPACE then Simulation.reset sim else sim) /\
    (Simulation.in_terminal_state sim = Ok false ->
     match KEY_ACTION_MAP ch with
     | Some a => exists reward, Simulation.act sim a = Ok (reward, sim')
     | None => sim' = sim
     end).
Proof.
  intros Hwf Hreach.
  destruct (reachable_terminal _ _ Hwf Hreach) as [b Hb].
  unfold HumanPlayer.interact, HumanPlayer.interact_elif.
  destruct (KEY_ACTION_MAP ch) as [a|] eqn:Hkey.
  - rewrite Hb, (key_action_not_space _ _ Hkey). cbn [mbind result_bind].
    destruct b; cbn [negb mbind result_bind].
    + exists sim. by split_and!.
    + destruct (reachable_act w sim a Hwf Hreach) as (r & sim' & Hact & Hr).
      rewrite Hact. cbn [mbind result_bind snd].
      exists sim'. split_and!; try done. eauto.
  - destruct (ch =? KEY_SPACE).
    + rewrite Hb. cbn [mbind result_bind].
      destruct b; cbn [mbind result_bind].
      * exists (Simulation.reset sim). split_and!; try done.
        by apply reach_reset.
      * exists sim. by split_and!.
    + cbn [mbind result_bind]. exists sim. by split_and!.
Qed.

Lemma human_interact_witness :
  exists sim',
    HumanPlayer.interact HumanPlayer.init KEY_RIGHT
      (Simulation.init trap_world)
    = Ok (HumanPlayer.make KEY_RIGHT, sim').
Proof.
  destruct (human_interact trap_world HumanPlayer.init KEY_RIGHT
              (Simulation.init trap_world) trap_world_well_formed
              (reach_init trap_world)) as (sim' & Hsim & _).
  exists sim'. exact Hsim.
Defined.


(** X12. In a well-formed world [MachinePlayer.interact] on a reachable
    simulation raises nothing but [KeyError].  On a terminal simulation
    it resets and leaves the environment alone: the policy is not asked
    and the learner is not told.  On a running one it asks the policy
    once; [None] ends in [KeyError]; an action is acted once and the
    learner is told the old position, the action, the reward and the new
    position, in the environment the policy left. *)
Theorem machine_interact {Env : Type} (w : World.t)
    (player : MachinePlayer.t Env) (sim : Simulation.t) (env : Env) :
  well_formed w -> reachable w sim ->
  (Simulation.in_terminal_state sim = Ok true ->
   MachinePlayer.interact player sim env
   = MachinePlayer.Returns (Simulation.reset sim) env) /\
  (Simulation.in_terminal_state sim = Ok false ->
   match MachinePlayer._policy player (Simulation.state sim) env with
   | (None, _) =>
       MachinePlayer.interact player sim env = MachinePlayer.KeyError
   | (Some a, env1) =>
       exists reward sim',
         Simulation.act sim a = Ok (reward, sim') /\
         reachable w sim' /\
         MachinePlayer.interact player sim env
         = MachinePlayer.Returns sim'
             (MachinePlayer._learner player (Simulation.state sim) a reward
                (Simulation.state sim') env1)
   end) /\
  (forall e, MachinePlayer.interact player sim env <> MachinePlayer.Raises e).
Proof.
  intros Hwf Hreach.
  destruct (reachable_terminal _ _ Hwf Hreach) as [b Hb].
  unfold MachinePlayer.interact. rewrite Hb.
  destruct b; [by split_and!|].
  destruct (MachinePlayer._policy player (Simulation.state sim) env)
    as [[a|] env1]; [|by split_and!].
  destruct (reachable_act w sim a Hwf Hreach) as (r & sim' & Hact & Hr).
  rewrite Hact. split_and!; try done. intros _. by exists r, sim'.
Qed.

Lemma machine_interact_witness :
  MachinePlayer.interact
    (MachinePlayer.make (fun _ env => (Some ACTION_RIGHT, env))
       StubLearner.observe)
    (Simulation.make trap_world (1, 0) (-1000)) tt
  = MachinePlayer.Returns (Simulation.init trap_world) tt.
Proof.
  apply (machine_interact trap_world
           (MachinePlayer.make (fun _ env => (Some ACTION_RIGHT, env))
              StubLearner.observe)
           (Simulation.make trap_world (1, 0) (-1000)) tt
           trap_world_well_formed).
  - by apply (reach_act trap_world (Simulation.init trap_world) ACTION_RIGHT
                (-1000)); [apply reach_init|].
  - reflexivity.
Defined.

(** ** The order of floats *)

Ltac sf_signs :=
  repeat match goal with
         | sgn : bool |- _ => destruct sgn
         end;
  simpl in *; try discriminate; try reflexivity.

Ltac sf_compare :=
  repeat match goal with
         | H : context [Z.compare ?a ?b] |- _ =>
             destruct (Z.compare_spec a b); simpl in H
         | H : context [PosDef.Pos.compare_cont Eq ?a ?b] |- _ =>
             change (PosDef.Pos.compare_cont Eq a b) with (Pos.compare a b)
               in H;
             destruct (Pos.compare_spec a b); simpl in H
         | |- context [Z.compare ?a ?b] =>
             destruct (Z.compare_spec a b); simpl
         | |- context [PosDef.Pos.compare_cont Eq ?a ?b] =>
             change (PosDef.Pos.compare_cont Eq a b) with (Pos.compare a b);
             destruct (Pos.compare_spec a b); simpl
         end;
  try discriminate; try reflexivity; try lia.

Lemma SFcompare_trans x y z c1 c2 :
  SFcompare x y = Some c1 -> SFcompare y z = Some c2 ->
  c1 <> Gt -> c2 <> Gt ->
  SFcompare x z = Some (match c1 with Eq => c2 | _ => Lt end).
Proof.
  intros Hxy Hyz Hc1 Hc2.
  destruct c1; [| |done]; (destruct c2; [| |done]);
    destruct x as [sx|sx| |sx mx ex], y as [sy|sy| |sy my ey],
             z as [sz|sz| |sz mz ez]; simpl in Hxy, Hyz |- *;
    try discriminate; sf_signs; sf_compare.
Qed.

Lemma ltb_trans x y z :
  PrimFloat.ltb x y = true -> PrimFloat.ltb y z = true ->
  PrimFloat.ltb x z = true.
Proof.
  rewrite !FloatAxioms.ltb_spec. unfold SFltb. intros Hxy Hyz.
  destruct (SFcompare (Prim2SF x) (Prim2SF y)) as [[]|] eqn:H1; try done.
  destruct (SFcompare (Prim2SF y) (Prim2SF z)) as [[]|] eqn:H2; try done.
  by rewrite (SFcompare_trans _ _ _ _ _ H1 H2).
Qed.

Lemma ltb_leb_trans x y z :
  PrimFloat.ltb x y = true -> PrimFloat.leb y z = true ->
  PrimFloat.ltb x z = true.
Proof.
  rewrite !FloatAxioms.ltb_spec, FloatAxioms.leb_spec.
  unfold SFltb, SFleb. intros Hxy Hyz.
  destruct (SFcompare (Prim2SF x) (Prim2SF y)) as [[]|] eqn:H1; try done.
  destruct (SFcompare (Prim2SF y) (Prim2SF z)) as [[]|] eqn:H2; try done;
    by rewrite (SFcompare_trans _ _ _ _ _ H1 H2).
Qed.

Lemma leb_trans x y z :
  PrimFloat.leb x y = true -> PrimFloat.leb y z = true ->
  PrimFloat.leb x z = true.
Proof.
  rewrite !FloatAxioms.leb_spec. unfold SFleb. intros Hxy Hyz.
  destruct (SFcompare (Prim2SF x) (Prim2SF y)) as [[]|] eqn:H1; try done;
    (destruct (SFcompare (Prim2SF y) (Prim2SF z)) as [[]|] eqn:H2; try done);
    by rewrite (SFcompare_trans _ _ _ _ _ H1 H2).
Qed.

Lemma ltb_asym x y : PrimFloat.ltb x y = true -> PrimFloat.ltb y x = false.
Proof.
  intros Hxy. destruct (PrimFloat.ltb y x) eqn:Hyx; [|done].
  by rewrite <- (ltb_irrefl x), (ltb_trans x y x).
Qed.

(** ** Properties of the table and the learner *)

Section TableMore.
Context {State : Type} `{Countable State}.
Implicit Types (q : QTable.t State) (s : State) (a : action).

(** The scan ends on a value that no scanned action exceeds, and that
    is the starting value or the value of the action it returns. *)
Lemma best_of_max value actions best_action best_value :
  let r := best_of value actions best_action best_value in
  (r.2 = best_value \/ PrimFloat.ltb best_value r.2 = true) /\
  (forall b, b ∈ actions -> PrimFloat.ltb r.2 (value b) = false) /\
  (r = (best_action, best_value) \/
   exists b, b ∈ actions /\ r = (Some b, value b)
             /\ PrimFloat.ltb best_value (value b) = true).
Proof.
  revert best_action best_value.
  induction actions as [|a rest IH]; intros ba bv; cbv zeta.
  - simpl. split_and!; [by left | by intros b ?%elem_of_nil | by left].
  - rewrite best_of_cons.
    destruct (PrimFloat.ltb bv (value a)) eqn:Hlt.
    + destruct (IH (Some a) (value a)) as (Hge & Hmax & Hwho).
      set (r := best_of value rest (Some a) (value a)) in *.
      split_and!.
      * right. destruct Hge as [->|Hge]; [done | by eapply ltb_trans].
      * intros b [->|Hb]%elem_of_cons; [|by apply Hmax].
        destruct Hge as [->|Hge]; [apply ltb_irrefl | by apply ltb_asym].
      * right. destruct Hwho as [->|(b & Hb & -> & Hvb)].
        -- exists a. split_and!; [apply list_elem_of_here | done | done].
        -- exists b. split_and!; [by apply list_elem_of_further | done|].
           by eapply ltb_trans.
    + destruct (IH ba bv) as (Hge & Hmax & Hwho).
      set (r := best_of value rest ba bv) in *.
      split_and!; [done| |].
      * intros b [->|Hb]%elem_of_cons; [|by apply Hmax].
        destruct Hge as [->|Hge]; [done|].
        destruct (PrimFloat.ltb r.2 (value a)) eqn:Hra; [|done].
        by rewrite (ltb_trans _ _ _ Hge Hra) in Hlt.
      * destruct Hwho as [->|(b & Hb & -> & Hvb)]; [by left|].
        right. exists b. split_and!; [by apply list_elem_of_further|done|done].
Qed.

Lemma all_actions a : a ∈ ALL_ACTIONS.
Proof.
  unfold ALL_ACTIONS.
  destruct a;
    repeat first [apply list_elem_of_here | apply list_elem_of_further].
Qed.

(** X13. [best] returns a greatest value: no action of the state has a
    value greater than the one returned.  The value is that of the
    returned action and is greater than [-1e20]; when no action is
    returned the value is [-1e20]. *)
Theorem best_maximal q s :
  (forall b, PrimFloat.ltb (QTable.best q s).1.2 (QTable.get q s b).1
             = false) /\
  match (QTable.best q s).1.1 with
  | Some a => (QTable.best q s).1.2 = (QTable.get q s a).1
              /\ PrimFloat.ltb (-1e20) (QTable.get q s a).1 = true
  | None => (QTable.best q s).1.2 = (-1e20)%float
  end.
Proof.
  rewrite best_scan.
  destruct (best_of_max (fun a => value_of q (s, a)) ALL_ACTIONS None
              (-1e20)%float) as (_ & Hmax & Hwho).
  split.
  - intros b. rewrite get_value. apply Hmax, all_actions.
  - destruct Hwho as [->|(b & _ & -> & Hb)]; simpl; [done|].
    by rewrite get_value.
Qed.

(** What the loop of [best] leaves in the dictionary. *)
Lemma best_loop_table actions s best_action best_value q k :
  let q' := (QTable.best_loop actions s best_action best_value q).2 in
  QTable.init_reward q' = QTable.init_reward q /\
  QTable._table q' !! k
  = match QTable._table q !! k with
    | Some v => Some v
    | None => if decide (k.1 = s /\ k.2 ∈ actions)
              then Some (QTable.init_reward q) else None
    end.
Proof.
  revert best_action best_value q.
  induction actions as [|a rest IH]; intros ba bv q; cbv zeta; simpl.
  - split; [done|]. destruct (QTable._table q !! k); [done|].
    case_decide as Hk; [|done]. by destruct Hk as [_ ?%elem_of_nil].
  - assert (Hstep : forall ba' bv',
      let q1 := (QTable.get q s a).2 in
      let q' := (QTable.best_loop rest s ba' bv' q1).2 in
      QTable.init_reward q' = QTable.init_reward q /\
      QTable._table q' !! k
      = match QTable._table q !! k with
        | Some v => Some v
        | None => if decide (k.1 = s /\ k.2 ∈ a :: rest)
                  then Some (QTable.init_reward q) else None
        end).
    { intros ba' bv'. cbv zeta.
      destruct (IH ba' bv' (QTable.get q s a).2) as [-> ->].
      unfold QTable.get.
      destruct (QTable._table q !! (s, a)) as [v|] eqn:Hsa; simpl.
      - split; [done|]. destruct (QTable._table q !! k) eqn:Hk; [done|].
        destruct k as [ks ka]. simpl.
        destruct (decide (ks = s /\ ka ∈ rest)) as [[-> Hin]|Hn].
        + by rewrite decide_True by (split; [done | by apply list_elem_of_further]).
        + rewrite decide_False; [done|].
          intros [-> [->|Hin]%elem_of_cons]; [congruence | by apply Hn].
      - split; [done|]. destruct k as [ks ka]. simpl.
        destruct (decide ((ks, ka) = (s, a))) as [[= -> ->]|Hne].
        + rewrite lookup_insert_eq, Hsa.
          by rewrite decide_True by (split; [done | apply list_elem_of_here]).
        + rewrite lookup_insert_ne by done.
          destruct (QTable._table q !! (ks, ka)); [done|].
          destruct (decide (ks = s /\ ka ∈ rest)) as [[-> Hin]|Hn].
          * by rewrite decide_True by (split; [done | by apply list_elem_of_further]).
          * rewrite decide_False; [done|].
            intros [-> [->|Hin]%elem_of_cons]; [done | by apply Hn]. }
    destruct (QTable.get q s a) as [value q1]. simpl in Hstep.
    destruct (PrimFloat.ltb bv value); apply Hstep.
Qed.

Lemma best_stores_defaults_lemma q s (k : State * action) :
  QTable._table (QTable.best q s).2 !! k
  = match QTable._table q !! k with
    | Some v => Some v
    | None => if decide (k.1 = s) then Some (QTable.init_reward q) else None
    end.
Proof.
  destruct (best_loop_table ALL_ACTIONS s None (-1e20)%float q k)
    as [_ Hk].
  unfold QTable.best. rewrite Hk.
  destruct (QTable._table q !! k); [done|].
  destruct (decide (k.1 = s /\ k.2 ∈ ALL_ACTIONS)) as [[Hs _]|Hn],
           (decide (k.1 = s)) as [Hs'|Hs']; try done.
  exfalso. apply Hn. split; [done | apply all_actions].
Qed.

(** X14. [best] is a read that writes: it stores the default under
    every action of the state that had no entry, and touches nothing
    else, neither an entry already stored nor another state nor the
    default. *)
Theorem best_stores_defaults q s (k : State * action) :
  QTable.init_reward (QTable.best q s).2 = QTable.init_reward q /\
  QTable._table (QTable.best q s).2 !! k
  = match QTable._table q !! k with
    | Some v => Some v
    | None => if decide (k.1 = s) then Some (QTable.init_reward q) else None
    end.
Proof.
  split; [|apply best_stores_defaults_lemma].
  apply (best_loop_table ALL_ACTIONS s None (-1e20)%float q k).
Qed.

(** X15. [set] overwrites: a second [set] of a key replaces the first,
    [set]s of different keys can be swapped, and a [set] changes what
    [get] returns for its own key only. *)
Theorem set_laws q s a (v : float) :
  (forall v', QTable.set (QTable.set q s a v') s a v = QTable.set q s a v) /\
  (forall s' a' v', (s', a') <> (s, a) ->
     QTable.set (QTable.set q s' a' v') s a v
     = QTable.set (QTable.set q s a v) s' a' v') /\
  (forall s' a',
     (QTable.get (QTable.set q s a v) s' a').1
     = if decide ((s', a') = (s, a)) then v else (QTable.get q s' a').1).
Proof.
  split_and!.
  - intros v'. unfold QTable.set. simpl. by rewrite insert_insert_eq.
  - intros s' a' v' Hne. unfold QTable.set. simpl. f_equal.
    by apply insert_insert_ne.
  - intros s' a'. by rewrite !get_value, set_value.
Qed.

(** What [observe] leaves for every key. *)
Lemma observe_value (learner : QLearner.t) q old_state a reward new_state k :
  value_of (QLearner.observe learner q old_state a reward new_state) k
  = if decide (k = (old_state, a))
    then ((QTable.get q old_state a).1
          + QLearner._alpha learner
            * (reward + QLearner._gamma learner
                        * (QTable.best q new_state).1.2
               - (QTable.get q old_state a).1))%float
    else value_of q k.
Proof.
  unfold QLearner.observe.
  destruct (best_respects _ _ new_state (get_same_values q old_state a))
    as [Hbest _].
  pose proof (get_same_values q old_state a) as Hget.
  destruct (QTable.get q old_state a) as [prev q1]. simpl in *.
  pose proof (best_same_values q1 new_state) as Hsame.
  destruct (QTable.best q1 new_state) as [[ba bv] q2]. simpl in *.
  rewrite set_value, <- Hbest. simpl. case_decide; [done|].
  destruct Hsame as [_ ->]. apply Hget.
Qed.

(** X16. [observe] on [old_state] changes the estimate of no other
    state: for every state but [old_state], [best] returns the same
    action and the same value as before. *)
Theorem observe_keeps_other_states (learner : QLearner.t) q old_state a
    (reward : float) new_state s :
  s <> old_state ->
  (QTable.best
     (QLearner.observe learner q old_state a reward new_state) s).1
  = (QTable.best q s).1.
Proof.
  intros Hne. rewrite !best_scan. apply best_of_ext. intros b.
  rewrite observe_value. case_decide as Hk; [|done]. by injection Hk.
Qed.

(** X17. The keys that [observe] adds to the dictionary are the one it
    sets and the actions of [new_state]: a key is stored afterwards
    exactly when it was stored before, is [(old_state, action)] or is a
    key of [new_state]. *)
Theorem observe_keys (learner : QLearner.t) q old_state a
    (reward : float) new_state (k : State * action) :
  is_Some (QTable._table
             (QLearner.observe learner q old_state a reward new_state) !! k)
  <-> is_Some (QTable._table q !! k) \/ k = (old_state, a) \/ k.1 = new_state.
Proof.
  unfold QLearner.observe.
  assert (Hget : forall k',
    is_Some (QTable._table (QTable.get q old_state a).2 !! k')
    <-> is_Some (QTable._table q !! k') \/ k' = (old_state, a)).
  { intros k'. unfold QTable.get.
    destruct (QTable._table q !! (old_state, a)) as [v|] eqn:Hk; simpl.
    - split; [by left|]. intros [Hsome | ->]; [done | by rewrite Hk].
    - rewrite lookup_insert.
      destruct (decide ((old_state, a) = k')) as [<-|Hk'].
      + split; [by right | eauto].
      + split; [by left | by intros [?|?]]. }
  destruct (QTable.get q old_state a) as [prev q1]. simpl in Hget.
  pose proof (best_stores_defaults_lemma q1 new_state k) as Hbest.
  destruct (QTable.best q1 new_state) as [[ba bv] q2]. simpl in *.
  rewrite lookup_insert.
  destruct (decide ((old_state, a) = k)) as [<-|Hk].
  - split; [by right; left | eauto].
  - rewrite Hbest.
    assert (Hq1 : is_Some (QTable._table q !! k)
                  \/ k = (old_state, a) \/ k.1 = new_state
                  <-> is_Some (QTable._table q1 !! k) \/ k.1 = new_state)
      by (rewrite Hget; tauto).
    rewrite Hq1.
    destruct (QTable._table q1 !! k) as [v|]; [split; eauto|].
    destruct (decide (k.1 = new_state)) as [Hn|Hn].
    + split; [by right | eauto].
    + split; [by intros [v [=]]|].
      intros [[v Hv]|Hnew]; done.
Qed.

End TableMore.

Lemma observe_keeps_other_states_witness :
  (QTable.best
     (QLearner.observe (QLearner.make 0.5 1) (QTable.init 0)
        (0, 0) ACTION_RIGHT (-1) (1, 0)) (1, 0)).1
  = (QTable.best (QTable.init (State := Z * Z) 0) (1, 0)).1.
Proof.
  apply (observe_keeps_other_states (QLearner.make 0.5 1)
           (QTable.init (State := Z * Z) 0) (0, 0) ACTION_RIGHT (-1)
           (1, 0) (1, 0)).
  discriminate.
Defined.

Section GreedyFacts.
Context {State : Type} `{Countable State}.
Implicit Types (q : QTable.t State) (s : State).

Lemma greedy_picks q s :
  PrimFloat.ltb (-1e20) (QTable.init_reward q) = true ->
  (forall k v, QTable._table q !! k = Some v ->
               PrimFloat.ltb (-1e20) v = true) ->
  exists a q', GreedyQ.pick_action s q = (Some a, q').
Proof.
  intros Hdefault Hstored. unfold GreedyQ.pick_action.
  pose proof (best_scan q s) as Hscan.
  assert (Hup : PrimFloat.ltb (-1e20) (value_of q (s, ACTION_UP)) = true).
  { unfold value_of.
    destruct (QTable._table q !! (s, ACTION_UP)) as [v0|] eqn:Hk; simpl;
      [by eapply Hstored | done]. }
  change ALL_ACTIONS
    with (ACTION_UP :: [ACTION_DOWN; ACTION_LEFT; ACTION_RIGHT]) in Hscan.
  rewrite best_of_cons, Hup in Hscan.
  destruct (best_of_some (fun a => value_of q (s, a))
              [ACTION_DOWN; ACTION_LEFT; ACTION_RIGHT] ACTION_UP
              (value_of q (s, ACTION_UP))) as [a Ha].
  rewrite <- Hscan in Ha.
  destruct (QTable.best q s) as [[picked v] q']. simpl in Ha.
  subst picked. by exists a, q'.
Qed.

Lemma greedy_picks_none q s :
  (forall a, PrimFloat.leb (QTable.get q s a).1 (-1e20) = true) ->
  exists q', GreedyQ.pick_action s q = (None, q').
Proof.
  intros Hle. unfold GreedyQ.pick_action.
  pose proof (best_scan q s) as Hscan.
  rewrite best_of_keep in Hscan.
  - destruct (QTable.best q s) as [[picked v] q']. simpl in Hscan.
    injection Hscan as -> _. by exists q'.
  - intros a _. apply leb_not_ltb. rewrite <- get_value. apply Hle.
Qed.

End GreedyFacts.

(** X18. The machine player of [--q] without exploration, a greedy
    policy and a Q-learner on one table: on a reachable simulation of a
    well-formed world [interact] returns, to a reachable simulation,
    whenever the default and all stored values are greater than [-1e20];
    and it raises [KeyError] on a running simulation when all four
    values of the position are at most [-1e20], the policy then
    returning [None]. *)
Theorem greedy_machine_interact (w : World.t) (l : QLearner.t)
    (sim : Simulation.t) (q : QTable.t (Z * Z)) :
  well_formed w -> reachable w sim ->
  let player := MachinePlayer.make GreedyQ.pick_action (q_learner l) in
  (PrimFloat.ltb (-1e20) (QTable.init_reward q) = true ->
   (forall k v, QTable._table q !! k = Some v ->
                PrimFloat.ltb (-1e20) v = true) ->
   exists sim' q',
     MachinePlayer.interact player sim q = MachinePlayer.Returns sim' q'
     /\ reachable w sim') /\
  (Simulation.in_terminal_state sim = Ok false ->
   (forall a, PrimFloat.leb (QTable.get q (Simulation.state sim) a).1 (-1e20)
              = true) ->
   MachinePlayer.interact player sim q = MachinePlayer.KeyError).
Proof.
  intros Hwf Hreach player.
  destruct (reachable_terminal _ _ Hwf Hreach) as [b Hb].
  unfold MachinePlayer.interact. rewrite Hb. split.
  - intros Hdefault Hstored. destruct b.
    + eexists _, _. split; [reflexivity | by apply reach_reset].
    + destruct (greedy_picks q (Simulation.state sim) Hdefault Hstored)
        as (a & q1 & Hpick).
      unfold player. cbn [MachinePlayer._policy]. rewrite Hpick.
      destruct (reachable_act w sim a Hwf Hreach) as (r & sim' & Hact & Hr).
      rewrite Hact. by eexists _, _.
  - intros [= ->] Hle.
    destruct (greedy_picks_none q (Simulation.state sim) Hle) as [q1 Hpick].
    unfold player. cbn [MachinePlayer._policy]. by rewrite Hpick.
Qed.

Lemma greedy_machine_interact_witness :
  exists sim' q',
    MachinePlayer.interact
      (MachinePlayer.make GreedyQ.pick_action
         (q_learner (QLearner.make 0.5 1)))
      (Simulation.init trap_world) (QTable.init 0)
    = MachinePlayer.Returns sim' q'
    /\ reachable trap_world sim'.
Proof.
  apply (proj1 (greedy_machine_interact trap_world (QLearner.make 0.5 1)
                  (Simulation.init trap_world) (QTable.init 0)
                  trap_world_well_formed (reach_init trap_world))).
  - reflexivity.
  - intros k v Hk. simpl in Hk. by rewrite lookup_empty in Hk.
Defined.

Section PolicyMore.
Context {State Env : Type}.
Variable random_random : Env -> float * Env.

(** X19. For a sample in [0, 1), an [EpsilonPolicy] whose epsilon is at
    most [0] always follows policy A and one whose epsilon is at least
    [1] always follows policy B. *)
Theorem epsilon_policy_bounds (policy_a policy_b : policy State Env)
    (epsilon : float) (state : State) (env : Env) :
  let sample := (random_random env).1 in
  let env' := (random_random env).2 in
  PrimFloat.leb 0 sample = true ->
  PrimFloat.ltb sample 1 = true ->
  (PrimFloat.leb epsilon 0 = true ->
   EpsilonPolicy.pick_action random_random
     (EpsilonPolicy.make policy_a policy_b epsilon) state env
   = policy_a state env') /\
  (PrimFloat.leb 1 epsilon = true ->
   EpsilonPolicy.pick_action random_random
     (EpsilonPolicy.make policy_a policy_b epsilon) state env
   = policy_b state env').
Proof.
  intros sample env' Hlow Hhigh. unfold EpsilonPolicy.pick_action.
  subst sample env'. destruct (random_random env) as [sample env'].
  simpl in *. split; intros Heps.
  - by rewrite (leb_not_ltb _ _ (leb_trans _ _ _ Heps Hlow)).
  - by rewrite (ltb_leb_trans _ _ _ Hhigh Heps).
Qed.

End PolicyMore.

Lemma epsilon_policy_bounds_witness :
  EpsilonPolicy.pick_action (State := Z * Z) replay
    (EpsilonPolicy.make (fun _ env => (Some ACTION_UP, env))
                        (fun _ env => (Some ACTION_DOWN, env)) (-0.5))
    (0, 0) [0.25%float]
  = (Some ACTION_UP, []).
Proof.
  apply (proj1 (epsilon_policy_bounds replay
                  (fun _ env => (Some ACTION_UP, env))
                  (fun _ env => (Some ACTION_DOWN, env))
                  (-0.5) (0, 0) [0.25%float] eq_refl eq_refl)).
  reflexivity.
Defined.
